(** * DPLL SAT solver and DIMACS CNF parser: a shallow embedding

    The solver ([DPLLSolver.cpp]) and the parser ([CNFParser.cpp]) are
    embedded as executable functions.  C++ [int]s are modelled as [Z];
    [std::vector] is a list, and undefined behaviour (a subscript outside
    the vector, the overflow of [numVariables + 1]) is an explicit [Crash].
    The other arithmetic of the solver stays inside [int]: loop counters run
    up to a field of the formula, and [abs] of the least [int] is no
    subscript of a vector of at most [INT_MAX] entries. *)

From Stdlib Require Import ZArith Lia Ascii String.
From stdpp Require Import base tactics option list list_numbers pretty.

Local Open Scope Z_scope.

(** ** Results of partial computations *)

Inductive Fault :=
  | ClauseIndex   (* formula.clauses[i] outside the stored clauses *)
  | AssignIndex   (* assigns[i] outside the assignment vector *)
  | VectorLength  (* std::vector constructed with a negative size *)
  | IntOverflow.  (* signed overflow in int arithmetic *)

Inductive Res (A : Type) :=
  | Ok (x : A)
  | Crash (f : Fault)
  | Timeout.
Arguments Ok {A} x.
Arguments Crash {A} f.
Arguments Timeout {A}.

#[global] Instance Res_ret : MRet Res := fun A x => Ok x.
#[global] Instance Res_bind : MBind Res := fun A B k r =>
  match r with
  | Ok x => k x
  | Crash f => Crash f
  | Timeout => Timeout
  end.

Definition or_crash {A} (f : Fault) (o : option A) : Res A :=
  match o with
  | Some x => Ok x
  | None => Crash f
  end.

(** The range of [int]. *)
Definition INT_MAX : Z := 2147483647.
Definition INT_MIN : Z := -2147483648.

(** ** Formula.h *)

Record Formula := mkFormula {
  numVariables : Z;
  numClauses : Z;
  clauses : list (list Z)
}.

(** ** Vector subscripts: [v[i]] as an rvalue and [v[i] = x] *)

Definition subscript {A} (v : list A) (i : Z) : option A :=
  if decide (0 ≤ i) then v !! Z.to_nat i else None.

Definition store (v : list Z) (i : Z) (x : Z) : option (list Z) :=
  if decide (0 ≤ i < Z.of_nat (length v)) then Some (<[Z.to_nat i := x]> v)
  else None.

(** ** DPLLSolver.cpp *)

Module DPLLSolver.

(** The constructor: [assigns(f.numVariables + 1, 0)]. *)
Definition new (f : Formula) : Res (list Z) :=
  if decide (INT_MAX < numVariables f + 1) then Crash IntOverflow
  else if decide (0 ≤ numVariables f + 1)
       then Ok (replicate (Z.to_nat (numVariables f + 1)) 0)
       else Crash VectorLength.

(** The inner loop of [propagate] over the literals of one clause
    (lines 31-43): [Ok (satisfied, unassignedLits)]. *)
Fixpoint scan (assigns : list Z) (clause : list Z) (unassignedLits : list Z)
  : Res (bool * list Z) :=
  match clause with
  | [] => Ok (false, unassignedLits)
  | lit :: rest =>
      let var := Z.abs lit in
      val ← or_crash AssignIndex (subscript assigns var);
      if ((0 <? lit) && (val =? 1)) || ((lit <? 0) && (val =? -1))
      then Ok (true, unassignedLits)
      else if val =? 0
           then scan assigns rest (unassignedLits ++ [lit])
           else scan assigns rest unassignedLits
  end.

(** How one sweep over the clauses ends: the [for] loop runs to its end with
    the flag [changed], or [propagate] executes [return false]. *)
Inductive Sweep :=
  | Completed (changed : bool)
  | ReturnFalse.

(** The body of the [for] loop over the clauses (lines 27-64), iterated over
    the indices [idx]. *)
Fixpoint sweep (formula : Formula) (idx : list Z) (assigns : list Z)
    (changed : bool) : Res (Sweep * list Z) :=
  match idx with
  | [] => Ok (Completed changed, assigns)
  | i :: idx =>
      clause ← or_crash ClauseIndex (subscript (clauses formula) i);
      '(satisfied, unassignedLits) ← scan assigns clause [];
      if satisfied : bool then sweep formula idx assigns changed
      else match unassignedLits with
           | [] => Ok (ReturnFalse, assigns)
           | [lit] =>
               let var := Z.abs lit in
               assigns ← or_crash AssignIndex
                 (store assigns var (if 0 <? lit then 1 else -1));
               sweep formula idx assigns true
           | _ => sweep formula idx assigns changed
           end
  end.

(** The [while (changed)] loop; [fuel] bounds the number of sweeps. *)
Fixpoint propagate_loop (fuel : nat) (formula : Formula) (assigns : list Z)
  : Res (bool * list Z) :=
  match fuel with
  | O => Timeout
  | S fuel =>
      '(s, assigns) ← sweep formula (seqZ 0 (numClauses formula)) assigns false;
      match s with
      | ReturnFalse => Ok (false, assigns)
      | Completed false => Ok (true, assigns)
      | Completed true => propagate_loop fuel formula assigns
      end
  end.

(** Every sweep that reports a change fills an entry that held 0, so
    [length assigns + 1] sweeps always suffice ([propagate_returns]). *)
Definition propagate (formula : Formula) (assigns : list Z)
  : Res (bool * list Z) :=
  propagate_loop (S (length assigns)) formula assigns.

(** Lines 76-80; [&&] does not read [assigns[i]] once the flag is false. *)
Fixpoint allAssigned_loop (idx : list Z) (assigns : list Z) (allAssigned : bool)
  : Res bool :=
  match idx with
  | [] => Ok allAssigned
  | i :: idx =>
      if allAssigned
      then val ← or_crash AssignIndex (subscript assigns i);
           allAssigned_loop idx assigns (negb (val =? 0))
      else allAssigned_loop idx assigns false
  end.

Fixpoint pickUnassigned_loop (idx : list Z) (assigns : list Z) : Res Z :=
  match idx with
  | [] => Ok (-1)
  | i :: idx =>
      val ← or_crash AssignIndex (subscript assigns i);
      if val =? 0 then Ok i else pickUnassigned_loop idx assigns
  end.

Definition pickUnassigned (formula : Formula) (assigns : list Z) : Res Z :=
  pickUnassigned_loop (seqZ 1 (numVariables formula)) assigns.

(** The recursive search; [fuel] bounds the depth of the recursion. *)
Fixpoint DPLL (fuel : nat) (formula : Formula) (assigns : list Z)
  : Res (bool * list Z) :=
  match fuel with
  | O => Timeout
  | S fuel =>
      '(result, assigns) ← propagate formula assigns;
      if negb result then Ok (false, assigns) else
      allAssigned ←
        allAssigned_loop (seqZ 1 (numVariables formula)) assigns true;
      if allAssigned : bool then Ok (true, assigns) else
      var ← pickUnassigned formula assigns;
      assigns ← or_crash AssignIndex (store assigns (Z.abs var) 1);
      '(found, assigns) ← DPLL fuel formula assigns;
      if found : bool then Ok (true, assigns) else
      assigns ← or_crash AssignIndex (store assigns (Z.abs var) (-1));
      '(found, assigns) ← DPLL fuel formula assigns;
      if found : bool then Ok (true, assigns) else
      assigns ← or_crash AssignIndex (store assigns (Z.abs var) 0);
      Ok (false, assigns)
  end.

(** Lines 12-14 of [solve]. *)
Fixpoint reset_loop (idx : list Z) (assigns : list Z) : Res (list Z) :=
  match idx with
  | [] => Ok assigns
  | i :: idx =>
      assigns ← or_crash AssignIndex (store assigns i 0);
      reset_loop idx assigns
  end.

(** [solve]: the verdict ([true] is SAT) and the assignment vector it leaves.
    The recursion is at most [numVariables + 1] calls deep
    ([solve_returns]). *)
Definition solve (formula : Formula) (assigns : list Z) : Res (bool * list Z) :=
  assigns ← reset_loop (seqZ 1 (numVariables formula)) assigns;
  DPLL (S (Z.to_nat (numVariables formula))) formula assigns.

(** [DPLLSolver solver(f); solver.solve()] as in [main]. *)
Definition run (formula : Formula) : Res (bool * list Z) :=
  assigns ← new formula;
  solve formula assigns.

End DPLLSolver.

(** ** CNFParser.cpp *)

Module CNFParser.

Local Open Scope string_scope.

(** *** The part of [std::istream] the parser uses *)

Definition isspace (c : ascii) : bool :=
  let n := nat_of_ascii c in
  Nat.eqb n 32 || (Nat.leb 9 n && Nat.leb n 13).

Definition isdigit (c : ascii) : bool :=
  let n := nat_of_ascii c in
  Nat.leb 48 n && Nat.leb n 57.

(** A [std::stringstream]: the characters not yet read and the fail bit.
    Once the fail bit is set every extraction leaves its target unchanged. *)
Record istream := mkStream { unread : string; failbit : bool }.

Fixpoint skipws (s : string) : string :=
  match s with
  | String c rest => if isspace c then skipws rest else s
  | EmptyString => EmptyString
  end.

Fixpoint word (s : string) : string * string :=
  match s with
  | EmptyString => (EmptyString, EmptyString)
  | String c rest =>
      if isspace c then (EmptyString, s)
      else let '(w, r) := word rest in (String c w, r)
  end.

(** [stream >> str] for a [std::string]; [old] is the value [str] had. *)
Definition get_string (st : istream) (old : string) : istream * string :=
  if failbit st then (st, old)
  else match skipws (unread st) with
       | EmptyString => (mkStream EmptyString true, old)
       | s => let '(w, r) := word s in (mkStream r false, w)
       end.

Fixpoint digits (s : string) (acc : Z) (seen : bool) : Z * bool * string :=
  match s with
  | String c rest =>
      if isdigit c
      then digits rest (10 * acc + (Z.of_nat (nat_of_ascii c) - 48))%Z true
      else (acc, seen, s)
  | EmptyString => (acc, seen, EmptyString)
  end.

(** [stream >> n] for an [int]; [old] is the value [n] had.  When the stream
    is exhausted the target is left alone; when no number can be read it is
    set to 0, and a number outside the range of [int] is clamped; both set
    the fail bit. *)
Definition get_int (st : istream) (old : Z) : istream * Z :=
  if failbit st then (st, old)
  else match skipws (unread st) with
       | EmptyString => (mkStream EmptyString true, old)
       | String c rest as s =>
           let '(negative, body) :=
             if Ascii.eqb c "-" then (true, rest)
             else if Ascii.eqb c "+" then (false, rest)
             else (false, s) in
           let '(n, seen, r) := digits body 0%Z false in
           if negb seen then (mkStream r true, 0%Z)
           else let v := if negative : bool then (- n)%Z else n in
                if (v <? INT_MIN)%Z then (mkStream r true, INT_MIN)
                else if (INT_MAX <? v)%Z then (mkStream r true, INT_MAX)
                else (mkStream r false, v)
       end.

(** [std::getline] until it fails: the lines of a file.  [started] records
    whether a character of the current line has been read; at the end of the
    file a line without any is not delivered. *)
Fixpoint getlines (file : string) (line : string) (started : bool)
  : list string :=
  match file with
  | EmptyString => if started then [line] else []
  | String c rest =>
      if Ascii.eqb c "010" then line :: getlines rest "" false
      else getlines rest (line ++ String c "") true
  end.

(** *** The parser *)

(** The loop of [parseClause]; [p] is the local the stream writes to, and
    [fuel] bounds the number of extractions. *)
Fixpoint parseClause_loop (fuel : nat) (lineStream : istream) (p : Z)
    (out : list Z) : option (list Z) :=
  match fuel with
  | O => None
  | S fuel =>
      let '(lineStream, p) := get_int lineStream p in
      if failbit lineStream then Some out
      else if (p =? 0)%Z then Some out
      else parseClause_loop fuel lineStream p (out ++ [p])%list
  end.

(** Every successful extraction consumes a character, so one more than the
    length of the line is enough ([parseClause_loop_returns]); [int p] starts
    indeterminate and is written before it is read. *)
Definition parseClause (line : string) : list Z :=
  default [] (parseClause_loop (S (String.length line))
                               (mkStream line false) 0%Z []).

(** [parseHeader(line, numVars, numClauses)]: the new values of the two
    reference parameters, in this order, and what is printed. *)
Definition parseHeader (line : string) (numVars numClauses : Z)
  : Z * Z * list string :=
  let lineStream := mkStream line false in
  let '(lineStream, p) := get_string lineStream "" in
  let '(lineStream, cnf) := get_string lineStream "" in
  let '(lineStream, numVars) := get_int lineStream numVars in
  let '(lineStream, numClauses) := get_int lineStream numClauses in
  if negb (String.eqb p "p") || negb (String.eqb cnf "cnf")
  then (numVars, numClauses, ["Invalid header"])
  else (numVars, numClauses, []).

Definition isSkippable (line : string) : bool :=
  String.prefix "c" line || String.eqb line "".

(** The locals of [parse], with the text sent to [std::cout]. *)
Record Locals := mkLocals {
  formula : Formula;
  headerFound : bool;
  cout : list string
}.

(** The body of the [while (std::getline(file, line))] loop.  The call is
    [parseHeader(line, formula.numClauses, formula.numVariables)]. *)
Definition parse_line (st : Locals) (line : string) : Locals :=
  if isSkippable line then st
  else if negb (headerFound st) && String.prefix "p " line then
    let f := formula st in
    let '(field_numClauses, field_numVariables, out) :=
      parseHeader line (numClauses f) (numVariables f) in
    mkLocals (mkFormula field_numVariables field_numClauses (clauses f))
             true (cout st ++ out)%list
  else
    let clause := parseClause line in
    match clause with
    | [] => st
    | _ =>
        let f := formula st in
        mkLocals (mkFormula (numVariables f) (numClauses f)
                            (clauses f ++ [clause])%list)
                 (headerFound st) (cout st)
    end.

Section Parse.

(** [Formula formula;] leaves the two [int] fields indeterminate. *)
Variables indeterminate_numVariables indeterminate_numClauses : Z.

(** [parse]: [file] is the content of the file, [None] when it cannot be
    opened (then [std::getline] fails at once). *)
Definition parse (file : option string) : Formula * list string :=
  let lines := match file with
               | Some content => getlines content "" false
               | None => []
               end in
  let st := fold_left parse_line lines
              (mkLocals (mkFormula indeterminate_numVariables
                                   indeterminate_numClauses [])
                        false []) in
  (formula st, cout st).

End Parse.

End CNFParser.

Import DPLLSolver.


(** ** Reading an assignment vector *)

(** The test of line 35: the literal evaluates to true. *)
Definition lit_true (assigns : list Z) (lit : Z) : bool :=
  match subscript assigns (Z.abs lit) with
  | Some val => ((0 <? lit) && (val =? 1)) || ((lit <? 0) && (val =? -1))
  | None => false
  end.

Definition clause_true (assigns : list Z) (clause : list Z) : bool :=
  existsb (lit_true assigns) clause.

Definition is_unassigned (assigns : list Z) (i : Z) : bool :=
  match subscript assigns i with
  | Some val => val =? 0
  | None => false
  end.

Definition is_assigned (assigns : list Z) (i : Z) : bool :=
  match subscript assigns i with
  | Some val => negb (val =? 0)
  | None => false
  end.

Fixpoint count (p : Z → bool) (idx : list Z) : nat :=
  match idx with
  | [] => O
  | i :: idx => ((if p i then 1 else 0) + count p idx)%nat
  end.

(** The number of variables [1..numVariables] that hold a value, and the
    number that hold none. *)
Definition assigned_count (f : Formula) (assigns : list Z) : nat :=
  count (is_assigned assigns) (seqZ 1 (numVariables f)).

Definition unassigned_count (f : Formula) (assigns : list Z) : nat :=
  count (is_unassigned assigns) (seqZ 1 (numVariables f)).

(** [assigns'] keeps every value that [assigns] holds: it only fills
    entries that were 0. *)
Definition extends (assigns assigns' : list Z) : Prop :=
  length assigns' = length assigns ∧
  ∀ (i : nat) (val : Z),
    assigns !! i = Some val → val ≠ 0 → assigns' !! i = Some val.

(** Every variable entry (index 1 and up) holds 1 (true), -1 (false) or 0
    (unassigned). *)
Definition tri_state (assigns : list Z) : Prop :=
  ∀ (i : nat) (val : Z),
    (1 ≤ i)%nat → assigns !! i = Some val → val = 1 ∨ val = -1 ∨ val = 0.

(** A complete model of the formula: every variable holds 1 or -1 and every
    clause has a literal that evaluates to true. *)
Definition is_model (f : Formula) (assigns : list Z) : Prop :=
  (∀ v, 1 ≤ v ≤ numVariables f →
        subscript assigns v = Some 1 ∨ subscript assigns v = Some (-1)) ∧
  (∀ clause, clause ∈ clauses f →
        ∃ lit, lit ∈ clause ∧ lit_true assigns lit = true).

(** The contract of section 4.1 that keeps every subscript inside its
    vector, for an assignment vector of [n] entries. *)
Definition in_bounds (f : Formula) (n : nat) : Prop :=
  numClauses f ≤ Z.of_nat (length (clauses f)) ∧
  numVariables f < Z.of_nat n ∧
  ∀ clause lit, clause ∈ clauses f → lit ∈ clause → Z.abs lit < Z.of_nat n.

(** The same contract as a check on the formula alone, for the vector that
    the constructor allocates: non-negative counts, [numVariables + 1] an
    [int], no more clauses declared than stored, and literals of magnitude
    at most [numVariables]. *)
Definition in_range (f : Formula) : bool :=
  (0 <=? numVariables f) && (numVariables f <? INT_MAX) &&
  (0 <=? numClauses f) &&
  (numClauses f <=? Z.of_nat (length (clauses f))) &&
  forallb (forallb (λ lit, Z.abs lit <=? numVariables f)) (clauses f).

(** No clause holds the integer 0, which names no variable. *)
Definition no_zero_literal (f : Formula) : bool :=
  forallb (forallb (λ lit, negb (lit =? 0))) (clauses f).

(** ** Brute-force enumeration *)

(** All vectors of [n] values, each 1 (true) or -1 (false). *)
Fixpoint total_assignments (n : nat) : list (list Z) :=
  match n with
  | O => [[]]
  | S n => vals ← total_assignments n; [1 :: vals; (-1) :: vals]
  end.

(** Some total assignment of the variables [1..numVariables] makes every
    clause true; entry 0 of the vector is the unused one. *)
Definition brute_force (f : Formula) : bool :=
  existsb (λ vals, forallb (clause_true (0 :: vals)) (clauses f))
          (total_assignments (Z.to_nat (numVariables f))).

(** ** The search as a relation *)

(** [search f assigns verdict assigns']: a call of [DPLL] entered with
    [assigns] returns [verdict] and leaves [assigns']. *)
Inductive search (f : Formula) : list Z → bool → list Z → Prop :=
  | search_conflict a a' :
      propagate f a = Ok (false, a') →
      search f a false a'
  | search_complete a a' :
      propagate f a = Ok (true, a') →
      allAssigned_loop (seqZ 1 (numVariables f)) a' true = Ok true →
      search f a true a'
  | search_first a a1 var a2 a' :
      propagate f a = Ok (true, a1) →
      allAssigned_loop (seqZ 1 (numVariables f)) a1 true = Ok false →
      pickUnassigned f a1 = Ok var →
      store a1 (Z.abs var) 1 = Some a2 →
      search f a2 true a' →
      search f a true a'
  | search_second a a1 var a2 a3 a4 a' :
      propagate f a = Ok (true, a1) →
      allAssigned_loop (seqZ 1 (numVariables f)) a1 true = Ok false →
      pickUnassigned f a1 = Ok var →
      store a1 (Z.abs var) 1 = Some a2 →
      search f a2 false a3 →
      store a3 (Z.abs var) (-1) = Some a4 →
      search f a4 true a' →
      search f a true a'
  | search_exhausted a a1 var a2 a3 a4 a5 a' :
      propagate f a = Ok (true, a1) →
      allAssigned_loop (seqZ 1 (numVariables f)) a1 true = Ok false →
      pickUnassigned f a1 = Ok var →
      store a1 (Z.abs var) 1 = Some a2 →
      search f a2 false a3 →
      store a3 (Z.abs var) (-1) = Some a4 →
      search f a4 false a5 →
      store a5 (Z.abs var) 0 = Some a' →
      search f a false a'.

(** [recursive_call f a b]: a call of [DPLL] entered with [a] calls [DPLL]
    again, and that call is entered with [b] (line 87 or line 91). *)
Inductive recursive_call (f : Formula) : list Z → list Z → Prop :=
  | call_true a a1 var a2 :
      propagate f a = Ok (true, a1) →
      allAssigned_loop (seqZ 1 (numVariables f)) a1 true = Ok false →
      pickUnassigned f a1 = Ok var →
      store a1 (Z.abs var) 1 = Some a2 →
      recursive_call f a a2
  | call_false a a1 var a2 a3 a4 :
      propagate f a = Ok (true, a1) →
      allAssigned_loop (seqZ 1 (numVariables f)) a1 true = Ok false →
      pickUnassigned f a1 = Ok var →
      store a1 (Z.abs var) 1 = Some a2 →
      search f a2 false a3 →
      store a3 (Z.abs var) (-1) = Some a4 →
      recursive_call f a a4.

(** ** Formulas and files used as examples *)

(** Scenario 2 of the specification: clauses [1] and [-1]. *)
Definition units_formula : Formula := mkFormula 1 2 [[1]; [-1]].

(** (-1 or 2), (-1 or -2), (1 or -2): satisfied by 1 = false, 2 = false. *)
Definition stale_formula : Formula :=
  mkFormula 2 3 [[-1; 2]; [-1; -2]; [1; -2]].

(** Scenario 1 of the specification. *)
Definition scenario1 : Formula := mkFormula 2 2 [[1; 2]; [-1; -2]].

(** A satisfiable unit clause followed by an empty clause. *)
Definition empty_clause_formula : Formula := mkFormula 1 2 [[1]; []].

Definition newline : string := String "010" EmptyString.

(** A file of the header [p cnf 2 3] alone. *)
Definition header_file : string := ("p cnf 2 3" ++ newline)%string.

(** A header and one clause line that holds the sentinel alone. *)
Definition empty_clause_file : string :=
  ("p cnf 1 1" ++ newline ++ "0" ++ newline)%string.

(** A header whose second token is not [cnf], and one clause. *)
Definition bad_header_file : string :=
  ("p dnf 2 1" ++ newline ++ "1 2 0" ++ newline)%string.

(** ** DIMACS text *)

(** A string without the newline character: one line of a file. *)
Fixpoint one_line (s : string) : bool :=
  match s with
  | EmptyString => true
  | String c rest => negb (Ascii.eqb c "010") && one_line rest
  end.

(** The string is empty or starts with a character that is no digit, so a
    number written before it ends there. *)
Definition ends_number (s : string) : bool :=
  match s with
  | EmptyString => true
  | String c _ => negb (CNFParser.isdigit c)
  end.

(** A clause written as a clause line: each literal in decimal followed by
    a blank, then the sentinel 0. *)
Fixpoint render_clause (clause : list Z) : string :=
  match clause with
  | [] => "0"
  | lit :: rest => pretty lit +:+ " " +:+ render_clause rest
  end.

Fixpoint render_clauses (cls : list (list Z)) : string :=
  match cls with
  | [] => ""
  | clause :: rest => render_clause clause +:+ newline +:+ render_clauses rest
  end.

(** A file: the header line with the two numbers [v] and [c] in this
    order, then one line per clause. *)
Definition render_file (v c : Z) (cls : list (list Z)) : string :=
  "p cnf " +:+ pretty v +:+ " " +:+ pretty c +:+ newline
  +:+ render_clauses cls.

(** ** Assignment.h *)

Module Assignment.

Inductive Value := UNASSIGNED | FALSE | TRUE.

(** The constructor: [assigns(numVars + 1, Value::UNASSIGNED)]. *)
Definition new (numVars : Z) : Res (list Value) :=
  if decide (INT_MAX < numVars + 1) then Crash IntOverflow
  else if decide (0 ≤ numVars + 1)
       then Ok (replicate (Z.to_nat (numVars + 1)) UNASSIGNED)
       else Crash VectorLength.

Definition set (assigns : list Value) (var : Z) (val : Value)
  : Res (list Value) :=
  if decide (0 ≤ var < Z.of_nat (length assigns))
  then Ok (<[Z.to_nat var := val]> assigns)
  else Crash AssignIndex.

Definition get (assigns : list Value) (var : Z) : Res Value :=
  or_crash AssignIndex (subscript assigns var).

Definition isTrue (assigns : list Value) (var : Z) : Res bool :=
  val ← get assigns var;
  Ok (match val with TRUE => true | _ => false end).

Definition isFalse (assigns : list Value) (var : Z) : Res bool :=
  val ← get assigns var;
  Ok (match val with FALSE => true | _ => false end).

Definition isUnassigned (assigns : list Value) (var : Z) : Res bool :=
  val ← get assigns var;
  Ok (match val with UNASSIGNED => true | _ => false end).

(** [std::fill(assigns.begin(), assigns.end(), Value::UNASSIGNED)]. *)
Definition reset (assigns : list Value) : list Value :=
  replicate (length assigns) UNASSIGNED.

End Assignment.

(** ** The two [main] functions *)

(** The program that parses and prints the counts: what it writes to
    [std::cout], one entry per [<<]; an [int] is written in decimal. *)
Definition main_parse (nv0 nc0 : Z) (file : option string) : list string :=
  let '(f, out) := CNFParser.parse nv0 nc0 file in
  out ++ [pretty (numClauses f); newline; pretty (numVariables f); newline].

(** The program that parses, prints the counts and solves: what it writes
    to [std::cout] and how it ends.  The solver is constructed before
    anything is printed; when the constructor or [solve] fails, the output
    is what was written until then. *)
Definition main (nv0 nc0 : Z) (file : option string)
  : list string * Res unit :=
  let '(f, out) := CNFParser.parse nv0 nc0 file in
  match DPLLSolver.new f with
  | Ok assigns =>
      let out := out ++ [pretty (numClauses f); newline;
                         pretty (numVariables f); newline] in
      match DPLLSolver.solve f assigns with
      | Ok (result, _) =>
          (out ++ ["Result: "; if result : bool then "SAT" else "UNSAT"; ";"],
           Ok tt)
      | Crash e => (out, Crash e)
      | Timeout => (out, Timeout)
      end
  | Crash e => (out, Crash e)
  | Timeout => (out, Timeout)
  end.

(** * Proofs *)

(** ** The result monad *)

Lemma bind_Ok {A B} (r : Res A) (k : A → Res B) (y : B) :
  r ≫= k = Ok y ↔ ∃ x, r = Ok x ∧ k x = Ok y.
Proof.
  destruct r as [x| |]; cbn; split.
  - intros H. by exists x.
  - intros (x' & [= ->] & H). exact H.
  - done.
  - by intros (x' & [=] & _).
  - done.
  - by intros (x' & [=] & _).
Qed.

Lemma or_crash_Ok {A} (e : Fault) (o : option A) (x : A) :
  or_crash e o = Ok x ↔ o = Some x.
Proof. destruct o; cbn; split; congruence. Qed.

Lemma or_crash_not_Timeout {A} (e : Fault) (o : option A) :
  or_crash e o ≠ Timeout.
Proof. by destruct o. Qed.

(** Splits a hypothesis [x ← r; k = Ok y] into its steps. *)
Ltac bind_inv H :=
  let x := fresh "x" in
  let E := fresh "E" in
  apply bind_Ok in H; destruct H as (x & E & H);
  try (apply or_crash_Ok in E).

(** ** Vector subscripts *)

Lemma subscript_Some {A} (v : list A) (i : Z) (x : A) :
  subscript v i = Some x ↔ 0 ≤ i ∧ v !! Z.to_nat i = Some x.
Proof.
  unfold subscript. case_decide; split.
  - by intros ?.
  - by intros [_ ?].
  - done.
  - by intros [? _].
Qed.

Lemma subscript_is_Some {A} (v : list A) (i : Z) :
  is_Some (subscript v i) ↔ 0 ≤ i < Z.of_nat (length v).
Proof.
  unfold subscript. case_decide.
  - rewrite lookup_lt_is_Some. lia.
  - split; [by intros [? ?]|lia].
Qed.

Lemma subscript_nat {A} (v : list A) (i : nat) :
  subscript v (Z.of_nat i) = v !! i.
Proof.
  unfold subscript. case_decide; [|lia]. by rewrite Nat2Z.id.
Qed.

Lemma store_Some (v : list Z) (i x : Z) (v' : list Z) :
  store v i x = Some v' ↔
  0 ≤ i < Z.of_nat (length v) ∧ v' = <[Z.to_nat i := x]> v.
Proof.
  unfold store. case_decide; split.
  - by intros [= <-].
  - by intros [_ ->].
  - done.
  - by intros [? _].
Qed.

Lemma store_is_Some (v : list Z) (i x : Z) :
  is_Some (store v i x) ↔ 0 ≤ i < Z.of_nat (length v).
Proof.
  unfold store. case_decide; split.
  - done.
  - by eexists.
  - by intros [? ?].
  - done.
Qed.

Lemma store_length (v : list Z) (i x : Z) (v' : list Z) :
  store v i x = Some v' → length v' = length v.
Proof. intros (_ & ->)%store_Some. apply length_insert. Qed.

Lemma subscript_store (v : list Z) (i x : Z) (v' : list Z) (j : Z) :
  store v i x = Some v' →
  subscript v' j = if decide (j = i) then Some x else subscript v j.
Proof.
  intros (Hi & ->)%store_Some. unfold subscript.
  case_decide as Hj.
  - case_decide as Hij.
    + subst. apply list_lookup_insert_eq. lia.
    + apply list_lookup_insert_ne. lia.
  - case_decide; [lia|done].
Qed.

Lemma lookup_store (v : list Z) (i x : Z) (v' : list Z) (j : nat) :
  store v i x = Some v' →
  v' !! j = if decide (Z.of_nat j = i) then Some x else v !! j.
Proof.
  intros H. rewrite <- !subscript_nat. by apply subscript_store.
Qed.

(** ** Extension of an assignment *)

Lemma extends_refl (a : list Z) : extends a a.
Proof. by split. Qed.

Lemma extends_trans (a b c : list Z) : extends a b → extends b c → extends a c.
Proof.
  intros [Hl1 H1] [Hl2 H2]. split; [congruence|].
  intros i val Hi Hv. apply H2; [|done]. by apply H1.
Qed.

Lemma extends_store (a : list Z) (i x : Z) (a' : list Z) :
  subscript a i = Some 0 → store a i x = Some a' → extends a a'.
Proof.
  intros Hz Hs. split; [by eapply store_length|].
  intros j val Hj Hv. rewrite (lookup_store _ _ _ _ _ Hs).
  case_decide as Hij; [|done]. subst i.
  rewrite subscript_nat in Hz. congruence.
Qed.

Lemma extends_subscript (a a' : list Z) (i val : Z) :
  extends a a' → subscript a i = Some val → val ≠ 0 →
  subscript a' i = Some val.
Proof.
  intros [_ H] (Hi & Hl)%subscript_Some Hv.
  apply subscript_Some. split; [done|]. by apply H.
Qed.

Lemma extends_unassigned (a a' : list Z) (i : Z) :
  extends a a' → is_unassigned a' i = true → is_unassigned a i = true.
Proof.
  intros Hext. unfold is_unassigned.
  destruct (subscript a' i) as [val'|] eqn:E'; [|done].
  intros ->%Z.eqb_eq.
  assert (is_Some (subscript a i)) as [val E].
  { apply subscript_is_Some. destruct Hext as [<- _].
    apply subscript_is_Some. by eexists. }
  rewrite E. apply Z.eqb_eq. destruct (decide (val = 0)) as [|Hne]; [done|].
  pose proof (extends_subscript _ _ _ _ Hext E Hne). congruence.
Qed.

(** ** Counting entries *)

Lemma count_le (p q : Z → bool) (idx : list Z) :
  (∀ i, i ∈ idx → q i = true → p i = true) →
  (count q idx ≤ count p idx)%nat.
Proof.
  induction idx as [|i idx IH]; intros H; cbn; [lia|].
  assert (count q idx ≤ count p idx)%nat.
  { apply IH. intros j Hj. apply H. by right. }
  destruct (q i) eqn:Eq; [|lia].
  rewrite (H i) by (done || left). lia.
Qed.

Lemma count_lt (p q : Z → bool) (idx : list Z) (j : Z) :
  (∀ i, i ∈ idx → q i = true → p i = true) →
  j ∈ idx → p j = true → q j = false →
  (count q idx < count p idx)%nat.
Proof.
  induction idx as [|i idx IH]; intros H Hj Hp Hq; [by inversion Hj|].
  cbn. assert (count q idx ≤ count p idx)%nat.
  { apply count_le. intros k Hk. apply H. by right. }
  destruct (decide (i = j)) as [->|Hij].
  - rewrite Hp, Hq. lia.
  - assert (count q idx < count p idx)%nat.
    { apply IH; try done.
      - intros k Hk. apply H. by right.
      - apply elem_of_cons in Hj as [?|?]; [congruence|done]. }
    destruct (q i) eqn:Eq; [|lia].
    rewrite (H i) by (done || left). lia.
Qed.

Lemma count_le_S (p q : Z → bool) (idx : list Z) (j : Z) :
  NoDup idx →
  (∀ i, i ∈ idx → i ≠ j → q i = true → p i = true) →
  (count q idx ≤ S (count p idx))%nat.
Proof.
  induction 1 as [|i idx Hi Hnd IH]; intros H; cbn; [lia|].
  destruct (decide (i = j)) as [->|Hij].
  - assert (count q idx ≤ count p idx)%nat.
    { apply count_le. intros k Hk. apply H; [by right|]. by intros ->. }
    destruct (q j), (p j); lia.
  - assert (count q idx ≤ S (count p idx))%nat.
    { apply IH. intros k Hk. apply H. by right. }
    destruct (q i) eqn:Eq; [|lia].
    rewrite (H i) by (done || left). lia.
Qed.

Lemma count_le_length (p : Z → bool) (idx : list Z) :
  (count p idx ≤ length idx)%nat.
Proof. induction idx as [|i idx IH]; cbn; [lia|]. destruct (p i); lia. Qed.

Lemma count_split (a : list Z) (idx : list Z) :
  (count (is_assigned a) idx + count (is_unassigned a) idx
   + count (λ i, bool_decide (subscript a i = None)) idx)%nat = length idx.
Proof.
  induction idx as [|i idx IH]; cbn; [done|].
  unfold is_assigned at 1, is_unassigned at 1.
  destruct (subscript a i) as [val|]; cbn; [destruct (val =? 0); cbn|]; lia.
Qed.

Lemma count_outside (a a' : list Z) (idx : list Z) :
  length a' = length a →
  count (λ i, bool_decide (subscript a' i = None)) idx
  = count (λ i, bool_decide (subscript a i = None)) idx.
Proof.
  intros Hl. induction idx as [|i idx IH]; cbn; [done|]. rewrite IH.
  f_equal. rewrite (bool_decide_ext (subscript a' i = None)
                                    (subscript a i = None)); [done|].
  by rewrite !eq_None_not_Some, !subscript_is_Some, Hl.
Qed.

Lemma store_fill_unassigned (a : list Z) (i x : Z) (a' : list Z) (j : Z) :
  store a i x = Some a' → x ≠ 0 →
  is_unassigned a' j = true → is_unassigned a j = true ∧ j ≠ i.
Proof.
  intros Hs Hx. unfold is_unassigned.
  rewrite (subscript_store _ _ _ _ _ Hs). case_decide as Hij.
  - intros ?%Z.eqb_eq. done.
  - done.
Qed.

Lemma store_other_unassigned (a : list Z) (i x : Z) (a' : list Z) (j : Z) :
  store a i x = Some a' → j ≠ i → is_unassigned a' j = is_unassigned a j.
Proof.
  intros Hs Hij. unfold is_unassigned.
  rewrite (subscript_store _ _ _ _ _ Hs). by case_decide.
Qed.

(** ** The scan of one clause *)

Lemma scan_spec (a : list Z) (clause acc : list Z) (sat : bool) (u : list Z) :
  scan a clause acc = Ok (sat, u) →
  clause_true a clause = sat ∧
  (sat = false →
   ∃ u', u = acc ++ u' ∧
         Forall (λ lit, lit ∈ clause ∧ is_unassigned a (Z.abs lit) = true) u').
Proof.
  revert acc. induction clause as [|lit rest IH]; intros acc H.
  - injection H as <- <-. split; [done|]. intros _. exists [].
    by rewrite app_nil_r.
  - cbn [scan] in H. bind_inv H. cbn [clause_true existsb].
    unfold lit_true at 1. rewrite E.
    destruct (_ || _) eqn:Et in H.
    + injection H as <- <-. by rewrite Et.
    + rewrite Et. cbn [orb]. destruct (x =? 0) eqn:Ez.
      * apply IH in H as [Hc Hu]. split; [done|].
        intros Hs. destruct (Hu Hs) as (u' & -> & HF).
        exists (lit :: u'). split; [by rewrite <- app_assoc|].
        constructor.
        -- split; [left|]. unfold is_unassigned. by rewrite E.
        -- eapply Forall_impl; [exact HF|]. intros l [? ?]. split; [by right|done].
      * apply IH in H as [Hc Hu]. split; [done|].
        intros Hs. destruct (Hu Hs) as (u' & -> & HF).
        exists u'. split; [done|].
        eapply Forall_impl; [exact HF|]. intros l [? ?]. split; [by right|done].
Qed.

Lemma scan_not_Timeout (a : list Z) (clause acc : list Z) :
  scan a clause acc ≠ Timeout.
Proof.
  revert acc. induction clause as [|lit rest IH]; intros acc; [done|].
  cbn [scan]. destruct (subscript a (Z.abs lit)) as [val|]; [|done].
  cbn. destruct (_ || _); [done|]. destruct (val =? 0); apply IH.
Qed.

Lemma scan_Ok (a : list Z) (clause acc : list Z) :
  (∀ lit, lit ∈ clause → Z.abs lit < Z.of_nat (length a)) →
  ∃ r, scan a clause acc = Ok r.
Proof.
  revert acc. induction clause as [|lit rest IH]; intros acc H; [by eexists|].
  cbn [scan].
  assert (is_Some (subscript a (Z.abs lit))) as [val ->].
  { apply subscript_is_Some. split; [lia|]. apply H. left. }
  cbn. destruct (_ || _); [by eexists|].
  destruct (val =? 0); apply IH; intros l Hl; apply H; by right.
Qed.

Lemma scan_Crash (a : list Z) (clause acc : list Z) (e : Fault) :
  scan a clause acc = Crash e → e = AssignIndex.
Proof.
  revert acc. induction clause as [|lit rest IH]; intros acc; [done|].
  cbn [scan]. destruct (subscript a (Z.abs lit)) as [val|]; cbn.
  - destruct (_ || _); [done|]. destruct (val =? 0); apply IH.
  - congruence.
Qed.

(** ** One sweep over the clauses *)

(** The four ways the body of the loop treats clause [i]. *)
Lemma sweep_cons (f : Formula) (i : Z) (idx : list Z) (a : list Z)
    (ch : bool) (r : Sweep * list Z) :
  sweep f (i :: idx) a ch = Ok r →
  ∃ clause sat u,
    subscript (clauses f) i = Some clause ∧
    scan a clause [] = Ok (sat, u) ∧
    ((sat = true ∧ sweep f idx a ch = Ok r) ∨
     (sat = false ∧ u = [] ∧ r = (ReturnFalse, a)) ∨
     (sat = false ∧ ∃ lit a1,
        u = [lit] ∧ is_unassigned a (Z.abs lit) = true ∧
        store a (Z.abs lit) (if 0 <? lit then 1 else -1) = Some a1 ∧
        sweep f idx a1 true = Ok r) ∨
     (sat = false ∧ (2 ≤ length u)%nat ∧ sweep f idx a ch = Ok r)).
Proof.
  intros H. cbn [sweep] in H. bind_inv H. bind_inv H.
  destruct x0 as [sat u]. exists x, sat, u. do 2 (split; [done|]).
  destruct sat; [by left|]. right.
  destruct u as [|lit [|lit2 u]].
  - left. by injection H as <-.
  - right; left. split; [done|]. bind_inv H. exists lit, x0.
    apply scan_spec in E0 as [_ Hu].
    destruct (Hu eq_refl) as (u' & Hu' & HF). cbn in Hu'. subst u'.
    apply Forall_cons in HF as [[_ Hz] _]. done.
  - right; right. split; [done|]. split; [cbn; lia|done].
Qed.

Lemma unit_value_nonzero (lit : Z) : (if 0 <? lit then 1 else -1) ≠ 0.
Proof. by destruct (0 <? lit). Qed.

Lemma is_unassigned_Some (a : list Z) (i : Z) :
  is_unassigned a i = true ↔ subscript a i = Some 0.
Proof.
  unfold is_unassigned. destruct (subscript a i) as [val|]; [|done].
  rewrite Z.eqb_eq. split; congruence.
Qed.

Lemma sweep_extends (f : Formula) (idx : list Z) (a : list Z) (ch : bool)
    (s : Sweep) (a' : list Z) :
  sweep f idx a ch = Ok (s, a') → extends a a'.
Proof.
  revert a ch. induction idx as [|i idx IH]; intros a ch H.
  - injection H as _ <-. apply extends_refl.
  - apply sweep_cons in H
      as (clause & sat & u & _ & _ & [[_ H]|[(_ & _ & H)|[(_ & H)|(_ & _ & H)]]]).
    + by eapply IH.
    + injection H as _ <-. apply extends_refl.
    + destruct H as (lit & a1 & _ & Hz & Hs & H).
      apply is_unassigned_Some in Hz.
      eapply extends_trans; [by eapply extends_store|by eapply IH].
    + by eapply IH.
Qed.

Lemma sweep_flag (f : Formula) (idx : list Z) (a : list Z) (ch : bool)
    (a' : list Z) :
  sweep f idx a true = Ok (Completed ch, a') → ch = true.
Proof.
  revert a. induction idx as [|i idx IH]; intros a H.
  - by injection H as <- _.
  - apply sweep_cons in H
      as (clause & sat & u & _ & _ & [[_ H]|[(_ & _ & H)|[(_ & H)|(_ & _ & H)]]]).
    + by eapply IH.
    + done.
    + destruct H as (lit & a1 & _ & _ & _ & H). by eapply IH.
    + by eapply IH.
Qed.

(** A sweep that ends without a change wrote nothing, and found every
    clause either satisfied or with at least two unassigned literals. *)
Lemma sweep_quiet (f : Formula) (idx : list Z) (a a' : list Z) :
  sweep f idx a false = Ok (Completed false, a') →
  a' = a ∧
  ∀ i, i ∈ idx →
    ∃ clause, subscript (clauses f) i = Some clause ∧
      (clause_true a clause = true ∨
       ∃ u, scan a clause [] = Ok (false, u) ∧ (2 ≤ length u)%nat).
Proof.
  induction idx as [|i idx IH]; intros H.
  - injection H as <-. split; [done|]. intros i Hi. by inversion Hi.
  - apply sweep_cons in H
      as (clause & sat & u & Hc & Hs & [[-> H]|[(_ & _ & H)|[(_ & H)|(-> & Hu & H)]]]).
    + apply IH in H as [-> H]. split; [done|].
      intros j [->|Hj]%elem_of_cons; [|by apply H].
      exists clause. split; [done|]. left. by apply scan_spec in Hs as [? _].
    + done.
    + destruct H as (lit & a1 & _ & _ & _ & H). by apply sweep_flag in H.
    + apply IH in H as [-> H]. split; [done|].
      intros j [->|Hj]%elem_of_cons; [|by apply H].
      exists clause. split; [done|]. right. by exists u.
Qed.

(** A sweep that reports a change filled an entry that held 0. *)
Lemma sweep_progress (f : Formula) (idx : list Z) (a a' : list Z) :
  sweep f idx a false = Ok (Completed true, a') →
  ∃ j, is_unassigned a j = true ∧ is_unassigned a' j = false.
Proof.
  induction idx as [|i idx IH]; intros H; [done|].
  apply sweep_cons in H
    as (clause & sat & u & Hc & Hs & [[-> H]|[(_ & _ & H)|[(_ & H)|(-> & Hu & H)]]]).
  - by apply IH.
  - done.
  - destruct H as (lit & a1 & _ & Hz & Hst & H).
    exists (Z.abs lit). split; [done|].
    apply sweep_extends in H.
    destruct (is_unassigned a' (Z.abs lit)) eqn:E; [|done].
    apply (extends_unassigned _ _ _ H) in E.
    eapply store_fill_unassigned in E as [_ ?]; [done|exact Hst|].
    apply unit_value_nonzero.
  - by apply IH.
Qed.

(** An empty clause among the clauses swept makes the sweep return false. *)
Lemma sweep_empty_clause (f : Formula) (idx : list Z) (a : list Z) (ch : bool)
    (k : Z) (s : Sweep) (a' : list Z) :
  k ∈ idx → subscript (clauses f) k = Some [] →
  sweep f idx a ch = Ok (s, a') → s = ReturnFalse.
Proof.
  intros Hk Hc. revert a ch.
  induction idx as [|i idx IH]; intros a ch H; [by inversion Hk|].
  destruct (decide (i = k)) as [->|Hik].
  - cbn [sweep] in H. rewrite Hc in H. cbn in H. by injection H as <- _.
  - apply elem_of_cons in Hk as [?|Hk]; [congruence|].
    apply sweep_cons in H
      as (clause & sat & u & _ & _ & [[_ H]|[(_ & _ & H)|[(_ & H)|(_ & _ & H)]]]).
    + by eapply IH.
    + by injection H as <- _.
    + destruct H as (lit & a1 & _ & _ & _ & H). by eapply IH.
    + by eapply IH.
Qed.

(** A sweep always ends; it ends without a crash when every subscript is in
    range, and the clause subscript alone is in range when [numClauses] does
    not exceed the number of clauses stored. *)
Lemma sweep_result (f : Formula) (idx : list Z) (a : list Z) (ch : bool) :
  sweep f idx a ch ≠ Timeout ∧
  ((∀ i, i ∈ idx → is_Some (subscript (clauses f) i)) →
   sweep f idx a ch ≠ Crash ClauseIndex) ∧
  ((∀ i, i ∈ idx → is_Some (subscript (clauses f) i)) →
   (∀ clause lit, clause ∈ clauses f → lit ∈ clause →
                  Z.abs lit < Z.of_nat (length a)) →
   ∃ r, sweep f idx a ch = Ok r).
Proof.
  revert a ch. induction idx as [|i idx IH]; intros a ch.
  { split; [done|]. split; [done|]. by eexists. }
  assert (∀ P : Z → Prop, (∀ j, j ∈ i :: idx → P j) → ∀ j, j ∈ idx → P j)
    as Htl by (intros P HP j Hj; apply HP; by right).
  assert (∀ a1 ch1 (r : Res (Sweep * list Z)),
            length a1 = length a → r = sweep f idx a1 ch1 →
            r ≠ Timeout ∧
            ((∀ j, j ∈ i :: idx → is_Some (subscript (clauses f) j)) →
             r ≠ Crash ClauseIndex) ∧
            ((∀ j, j ∈ i :: idx → is_Some (subscript (clauses f) j)) →
             (∀ clause lit, clause ∈ clauses f → lit ∈ clause →
                            Z.abs lit < Z.of_nat (length a)) →
             ∃ r', r = Ok r')) as Hrest.
  { intros a1 ch1 r Hl ->. destruct (IH a1 ch1) as (H1 & H2 & H3).
    split; [done|]. split.
    - intros Hi. apply H2. by apply Htl.
    - intros Hi Hlit. apply H3; [by apply Htl|by rewrite Hl]. }
  cbn [sweep]. destruct (subscript (clauses f) i) as [clause|] eqn:Ec; cbn.
  2:{ assert (¬ ∀ j, j ∈ i :: idx → is_Some (subscript (clauses f) j)) as Hn.
      { intros Hi. destruct (Hi i) as [? ?]; [left|congruence]. }
      split; [done|]. split; intros Hi; by destruct Hn. }
  pose proof (scan_not_Timeout a clause []) as Hnt.
  destruct (scan a clause []) as [[sat u]| |] eqn:Es; cbn; [|clear Hnt|done].
  2:{ split; [done|]. apply scan_Crash in Es as Hf. subst.
      split; [done|]. intros _ Hlit.
      destruct (scan_Ok a clause []) as [r Hr]; [|congruence].
      intros lit Hl. eapply Hlit; [|done].
      apply subscript_Some in Ec as [_ Ec]. by eapply list_elem_of_lookup_2. }
  destruct sat.
  { by apply (Hrest a ch). }
  destruct u as [|lit [|lit2 u]].
  - split; [done|]. split; [done|]. by eexists.
  - apply scan_spec in Es as [_ Hu].
    destruct (Hu eq_refl) as (u' & Hu' & HF). cbn in Hu'. subst u'.
    apply Forall_cons in HF as [[_ Hz] _]. apply is_unassigned_Some in Hz.
    assert (is_Some (store a (Z.abs lit) (if 0 <? lit then 1 else -1)))
      as [a1 Hs].
    { apply store_is_Some, subscript_is_Some. by eexists. }
    rewrite Hs. cbn. apply (Hrest a1 true); [by eapply store_length|done].
  - by apply (Hrest a ch).
Qed.

(** ** Propagation to the fixpoint *)

Lemma propagate_loop_extends (fuel : nat) (f : Formula) (a : list Z)
    (b : bool) (a' : list Z) :
  propagate_loop fuel f a = Ok (b, a') → extends a a'.
Proof.
  revert a. induction fuel as [|fuel IH]; intros a H; [done|].
  cbn [propagate_loop] in H. bind_inv H. destruct x as [s a1].
  apply sweep_extends in E. destruct s as [[|]|].
  - eapply extends_trans; [exact E|by apply IH].
  - by injection H as _ <-.
  - by injection H as _ <-.
Qed.

Lemma propagate_loop_stable (fuel : nat) (f : Formula) (a a' : list Z) :
  propagate_loop fuel f a = Ok (true, a') →
  sweep f (seqZ 0 (numClauses f)) a' false = Ok (Completed false, a').
Proof.
  revert a. induction fuel as [|fuel IH]; intros a H; [done|].
  cbn [propagate_loop] in H. bind_inv H. destruct x as [s a1].
  destruct s as [[|]|].
  - by eapply IH.
  - injection H as <-. by destruct (sweep_quiet _ _ _ _ E) as [-> _].
  - done.
Qed.

Lemma propagate_loop_empty_clause (fuel : nat) (f : Formula) (a : list Z)
    (k : Z) (b : bool) (a' : list Z) :
  k ∈ seqZ 0 (numClauses f) → subscript (clauses f) k = Some [] →
  propagate_loop fuel f a = Ok (b, a') → b = false.
Proof.
  intros Hk Hc. revert a. induction fuel as [|fuel IH]; intros a H; [done|].
  cbn [propagate_loop] in H. bind_inv H. destruct x as [s a1].
  rewrite (sweep_empty_clause _ _ _ _ _ _ _ Hk Hc E) in H.
  by injection H as <- _.
Qed.

Lemma stored_clauses_in_range (f : Formula) :
  numClauses f ≤ Z.of_nat (length (clauses f)) →
  ∀ i, i ∈ seqZ 0 (numClauses f) → is_Some (subscript (clauses f) i).
Proof.
  intros Hle i Hi%elem_of_seqZ. apply subscript_is_Some. lia.
Qed.

Lemma propagate_loop_result (fuel : nat) (f : Formula) (a : list Z) :
  (count (is_unassigned a) (seqZ 0 (Z.of_nat (length a))) < fuel)%nat →
  propagate_loop fuel f a ≠ Timeout ∧
  (numClauses f ≤ Z.of_nat (length (clauses f)) →
   propagate_loop fuel f a ≠ Crash ClauseIndex) ∧
  (in_bounds f (length a) → ∃ r, propagate_loop fuel f a = Ok r).
Proof.
  revert a. induction fuel as [|fuel IH]; intros a Hc; [lia|].
  cbn [propagate_loop].
  destruct (sweep_result f (seqZ 0 (numClauses f)) a false)
    as (Hnt & Hci & Hok).
  destruct (sweep f (seqZ 0 (numClauses f)) a false)
    as [[s a1]|e|] eqn:E; cbn; [| |done].
  - destruct s as [[|]|].
    + pose proof (sweep_extends _ _ _ _ _ _ E) as Hext.
      destruct (sweep_progress _ _ _ _ E) as (j & Hj & Hj').
      destruct (IH a1) as (H1 & H2 & H3).
      { destruct Hext as [Hl ?]. rewrite Hl.
        enough (count (is_unassigned a1) (seqZ 0 (Z.of_nat (length a)))
                < count (is_unassigned a) (seqZ 0 (Z.of_nat (length a))))%nat
          by lia.
        apply (count_lt _ _ _ j); [|  |done|done].
        - intros i _. by apply extends_unassigned.
        - apply elem_of_seqZ.
          apply is_unassigned_Some in Hj.
          assert (is_Some (subscript a j)) as Hs%subscript_is_Some by eauto.
          lia. }
      split; [done|]. split; [done|].
      destruct Hext as [Hl _]. by rewrite <- Hl.
    + split; [done|]. split; [done|]. by eexists.
    + split; [done|]. split; [done|]. by eexists.
  - split; [done|]. split.
    + intros Hle [= ->]. by apply Hci; [apply stored_clauses_in_range|].
    + intros (Hle & _ & Hlit). destruct Hok as [r Hr]; [|done|done].
      by apply stored_clauses_in_range.
Qed.

Lemma propagate_fuel (a : list Z) :
  (count (is_unassigned a) (seqZ 0 (Z.of_nat (length a)))
   < S (length a))%nat.
Proof.
  pose proof (count_le_length (is_unassigned a)
                (seqZ 0 (Z.of_nat (length a)))) as H.
  rewrite length_seqZ, Nat2Z.id in H. lia.
Qed.

(** The [while] loop of [propagate] always ends. *)
Lemma propagate_returns (f : Formula) (a : list Z) :
  propagate f a ≠ Timeout.
Proof. apply propagate_loop_result, propagate_fuel. Qed.

Lemma propagate_Ok (f : Formula) (a : list Z) :
  in_bounds f (length a) → ∃ b a', propagate f a = Ok (b, a').
Proof.
  intros H.
  destruct (propagate_loop_result (S (length a)) f a (propagate_fuel a))
    as (_ & _ & Hok).
  destruct (Hok H) as [[b a'] Hr]. by exists b, a'.
Qed.

Lemma propagate_extends (f : Formula) (a : list Z) (b : bool) (a' : list Z) :
  propagate f a = Ok (b, a') → extends a a'.
Proof. apply propagate_loop_extends. Qed.

Lemma propagate_stable (f : Formula) (a a' : list Z) :
  propagate f a = Ok (true, a') →
  sweep f (seqZ 0 (numClauses f)) a' false = Ok (Completed false, a').
Proof. apply propagate_loop_stable. Qed.

(** ** The completeness check and the decision *)

Lemma allAssigned_loop_false (idx : list Z) (a : list Z) :
  allAssigned_loop idx a false = Ok false.
Proof. induction idx as [|i idx IH]; [done|]. exact IH. Qed.

Lemma allAssigned_loop_true (idx : list Z) (a : list Z) :
  allAssigned_loop idx a true = Ok true →
  ∀ i, i ∈ idx → is_assigned a i = true.
Proof.
  induction idx as [|i idx IH]; intros H j Hj; [by inversion Hj|].
  cbn [allAssigned_loop] in H. bind_inv H.
  destruct (x =? 0) eqn:Ez; cbn [negb] in H.
  { by rewrite allAssigned_loop_false in H. }
  apply elem_of_cons in Hj as [->|Hj]; [|by apply IH].
  unfold is_assigned. by rewrite E, Ez.
Qed.

Lemma allAssigned_loop_result (idx : list Z) (a : list Z) (b : bool) :
  allAssigned_loop idx a b ≠ Timeout ∧
  ((∀ i, i ∈ idx → is_Some (subscript a i)) →
   ∃ b', allAssigned_loop idx a b = Ok b').
Proof.
  revert b. induction idx as [|i idx IH]; intros b.
  { split; [done|by eexists]. }
  destruct b.
  2:{ rewrite allAssigned_loop_false. split; [done|by eexists]. }
  cbn [allAssigned_loop]. destruct (subscript a i) as [val|] eqn:E; cbn.
  - destruct (IH (negb (val =? 0))) as [H1 H2]. split; [done|].
    intros Hi. apply H2. intros j Hj. apply Hi. by right.
  - split; [done|]. intros Hi. destruct (Hi i) as [? ?]; [left|congruence].
Qed.

(** When the check of lines 76-80 fails, [pickUnassigned] returns an
    unassigned variable of the range it scans. *)
Lemma pick_after_check (idx : list Z) (a : list Z) :
  allAssigned_loop idx a true = Ok false →
  ∃ var, pickUnassigned_loop idx a = Ok var ∧
         var ∈ idx ∧ is_unassigned a var = true.
Proof.
  induction idx as [|i idx IH]; intros H; [done|].
  cbn [allAssigned_loop] in H. bind_inv H.
  cbn [pickUnassigned_loop]. rewrite E. cbn.
  destruct (x =? 0) eqn:Ez; cbn [negb] in H.
  - exists i. split; [done|]. split; [left|].
    unfold is_unassigned. by rewrite E.
  - destruct (IH H) as (var & Hp & Hin & Hz). exists var.
    split; [done|]. split; [by right|done].
Qed.

(** [pickUnassigned] returns the first unassigned index it meets, and -1
    when it meets none. *)
Lemma pickUnassigned_loop_spec (idx : list Z) (a : list Z) (var : Z) :
  pickUnassigned_loop idx a = Ok var →
  (var = -1 ∧ ∀ i, i ∈ idx → is_assigned a i = true) ∨
  (∃ before after, idx = before ++ var :: after ∧
     is_unassigned a var = true ∧
     ∀ i, i ∈ before → is_assigned a i = true).
Proof.
  revert var. induction idx as [|i idx IH]; intros var H.
  - injection H as <-. left. split; [done|]. intros i Hi. by inversion Hi.
  - cbn [pickUnassigned_loop] in H. bind_inv H.
    assert (is_assigned a i = negb (x =? 0)) as Hai.
    { unfold is_assigned. by rewrite E. }
    destruct (x =? 0) eqn:Ez.
    + injection H as <-. right. exists [], idx. split; [done|].
      split; [unfold is_unassigned; by rewrite E|].
      intros j Hj. by inversion Hj.
    + apply IH in H as [[-> Hall]|(before & after & -> & Hz & Hb)].
      * left. split; [done|].
        intros j [->|Hj]%elem_of_cons; [done|by apply Hall].
      * right. exists (i :: before), after. split; [done|]. split; [done|].
        intros j [->|Hj]%elem_of_cons; [done|by apply Hb].
Qed.

Lemma pickUnassigned_lowest (f : Formula) (a : list Z) (var : Z) :
  pickUnassigned f a = Ok var → var ≠ -1 →
  1 ≤ var ≤ numVariables f ∧ is_unassigned a var = true ∧
  ∀ j, 1 ≤ j < var → is_assigned a j = true.
Proof.
  intros [[-> _]|(before & after & Hidx & Hz & Hb)]%pickUnassigned_loop_spec
         Hne; [done|].
  assert (∀ k : nat, seqZ 1 (numVariables f) !! k = Some var →
                     var = 1 + Z.of_nat k ∧ Z.of_nat k < numVariables f)
    as Hk by (intros k Hk; by apply lookup_seqZ).
  destruct (Hk (length before)) as [Hv Hlt].
  { rewrite Hidx. by apply list_lookup_middle. }
  split; [lia|]. split; [done|].
  intros j Hj. apply Hb.
  apply list_elem_of_lookup. exists (Z.to_nat (j - 1)).
  assert (seqZ 1 (numVariables f) !! Z.to_nat (j - 1) = Some j) as Hl.
  { apply lookup_seqZ. lia. }
  rewrite Hidx, lookup_app_l in Hl by lia. done.
Qed.

(** ** Resetting the assignment *)

Lemma reset_loop_spec (idx : list Z) (a a' : list Z) :
  reset_loop idx a = Ok a' →
  length a' = length a ∧
  ∀ j : nat, a' !! j = if decide (Z.of_nat j ∈ idx) then Some 0 else a !! j.
Proof.
  revert a. induction idx as [|i idx IH]; intros a H.
  - injection H as <-. split; [done|]. intros j.
    case_decide as Hj; [by inversion Hj|done].
  - cbn [reset_loop] in H. bind_inv H. apply IH in H as [Hl H].
    split; [by rewrite Hl; eapply store_length|].
    intros j. rewrite H, (lookup_store _ _ _ _ _ E).
    destruct (decide (Z.of_nat j ∈ idx)) as [Hin|Hnin].
    + by rewrite decide_True by (by right).
    + destruct (decide (Z.of_nat j = i)) as [<-|Hne].
      * by rewrite decide_True by left.
      * rewrite decide_False; [done|]. by intros [?|?]%elem_of_cons.
Qed.

Lemma reset_loop_result (idx : list Z) (a : list Z) :
  reset_loop idx a ≠ Timeout ∧
  ((∀ i, i ∈ idx → 0 ≤ i < Z.of_nat (length a)) →
   ∃ a', reset_loop idx a = Ok a').
Proof.
  revert a. induction idx as [|i idx IH]; intros a.
  { split; [done|by eexists]. }
  cbn [reset_loop]. destruct (store a i 0) as [a1|] eqn:E; cbn.
  - destruct (IH a1) as [H1 H2]. split; [done|]. intros Hi. apply H2.
    intros j Hj. rewrite (store_length _ _ _ _ E). apply Hi. by right.
  - split; [done|]. intros Hi.
    assert (is_Some (store a i 0)) as [? ?]; [|congruence].
    apply store_is_Some, Hi. left.
Qed.

(** ** The recursive search *)

(** Every result of [DPLL] is derived by the relation [search]. *)
Lemma DPLL_search (fuel : nat) (f : Formula) (a : list Z) (b : bool)
    (a' : list Z) :
  DPLL fuel f a = Ok (b, a') → search f a b a'.
Proof.
  revert a b a'. induction fuel as [|fuel IH]; intros a b a' H; [done|].
  cbn [DPLL] in H. bind_inv H. destruct x as [result a1].
  destruct result; cbn [negb] in H.
  2:{ injection H as <- <-. by apply search_conflict. }
  bind_inv H. destruct x.
  { injection H as <- <-. by apply search_complete. }
  bind_inv H. rename x into var. bind_inv H. rename x into a2.
  bind_inv H. destruct x as [found a3]. apply IH in E3. destruct found.
  { injection H as <- <-. by eapply search_first. }
  bind_inv H. rename x into a4.
  bind_inv H. destruct x as [found a5]. apply IH in E5. destruct found.
  { injection H as <- <-. by eapply search_second. }
  bind_inv H. injection H as <- <-. by eapply search_exhausted.
Qed.

Lemma search_length (f : Formula) (a : list Z) (b : bool) (a' : list Z) :
  search f a b a' → length a' = length a.
Proof.
  induction 1;
    repeat match goal with
           | H : propagate _ _ = Ok _ |- _ =>
               apply propagate_extends in H as [H _]
           | H : store _ _ _ = Some _ |- _ => apply store_length in H
           end; congruence.
Qed.

(** The variable chosen at a node: it is one of [1..numVariables], it was
    unassigned, and assigning it lowers the number of unassigned
    variables. *)
Lemma decision_fills (f : Formula) (a1 : list Z) (var : Z) (a2 : list Z) :
  allAssigned_loop (seqZ 1 (numVariables f)) a1 true = Ok false →
  pickUnassigned f a1 = Ok var →
  store a1 (Z.abs var) 1 = Some a2 →
  Z.abs var = var ∧ 1 ≤ var ≤ numVariables f ∧
  (unassigned_count f a2 < unassigned_count f a1)%nat.
Proof.
  intros Hall Hpick Hst.
  destruct (pick_after_check _ _ Hall) as (var' & Hp' & Hin & Hz).
  unfold pickUnassigned in Hpick. rewrite Hp' in Hpick.
  injection Hpick as ->.
  pose proof Hin as Hr%elem_of_seqZ.
  assert (Z.abs var = var) as Habs by lia. rewrite Habs in Hst.
  split; [done|]. split; [lia|].
  apply (count_lt _ _ _ var); [|done|done|].
  - intros i _ Hi. by eapply store_fill_unassigned in Hi as [? _].
  - unfold is_unassigned. rewrite (subscript_store _ _ _ _ _ Hst).
    by rewrite decide_True.
Qed.

Lemma store_unassigned_count (f : Formula) (a : list Z) (i x : Z)
    (a' : list Z) :
  store a i x = Some a' →
  (x ≠ 0 → (unassigned_count f a' ≤ unassigned_count f a)%nat) ∧
  (unassigned_count f a' ≤ S (unassigned_count f a))%nat.
Proof.
  intros Hst. split.
  - intros Hx. apply count_le. intros j _ Hj.
    by eapply store_fill_unassigned in Hj as [? _].
  - apply (count_le_S _ _ _ i); [apply NoDup_seqZ|].
    intros j _ Hji. by rewrite (store_other_unassigned _ _ _ _ _ Hst).
Qed.

Lemma extends_unassigned_count (f : Formula) (a a' : list Z) :
  extends a a' → (unassigned_count f a' ≤ unassigned_count f a)%nat.
Proof.
  intros H. apply count_le. intros i _. by apply extends_unassigned.
Qed.

(** A failing call never leaves more variables unassigned than it found. *)
Lemma search_unsat_count (f : Formula) (a : list Z) (b : bool) (a' : list Z) :
  search f a b a' → b = false →
  (unassigned_count f a' ≤ unassigned_count f a)%nat.
Proof.
  induction 1 as [a a' Hp|a a' Hp Hall| | |
                  a a1 var a2 a3 a4 a5 a' Hp Hall Hpick Hs1 _ IH1 Hs2 _ IH2 Hs3];
    intros Hb; try done.
  - by eapply extends_unassigned_count, propagate_extends.
  - apply propagate_extends, (extends_unassigned_count f) in Hp.
    destruct (decision_fills _ _ _ _ Hall Hpick Hs1) as (_ & _ & Hlt).
    destruct (store_unassigned_count f _ _ _ _ Hs2) as [Hle2 _].
    destruct (store_unassigned_count f _ _ _ _ Hs3) as [_ Hle3].
    specialize (IH1 eq_refl). specialize (IH2 eq_refl).
    specialize (Hle2 ltac:(done)). lia.
Qed.

(** A call that answers SAT leaves an assignment on which a sweep changes
    nothing and in which every variable holds a value. *)
Lemma search_sat (f : Formula) (a : list Z) (b : bool) (a' : list Z) :
  search f a b a' → b = true →
  sweep f (seqZ 0 (numClauses f)) a' false = Ok (Completed false, a') ∧
  allAssigned_loop (seqZ 1 (numVariables f)) a' true = Ok true.
Proof.
  induction 1; intros Hb; try done; try by auto.
  split; [by eapply propagate_stable|done].
Qed.

(** Each recursive call is entered with strictly fewer unassigned
    variables than the call that makes it. *)
Lemma recursive_call_unassigned (f : Formula) (a b : list Z) :
  recursive_call f a b →
  length b = length a ∧ (unassigned_count f b < unassigned_count f a)%nat.
Proof.
  intros [a0 a1 var a2 Hp Hall Hpick Hs1
         |a0 a1 var a2 a3 a4 Hp Hall Hpick Hs1 Hsearch Hs2].
  - destruct (decision_fills _ _ _ _ Hall Hpick Hs1) as (_ & _ & Hlt).
    pose proof (propagate_extends _ _ _ _ Hp) as Hext.
    pose proof (extends_unassigned_count f _ _ Hext) as Hle.
    destruct Hext as [Hl _].
    apply store_length in Hs1. split; [congruence|lia].
  - destruct (decision_fills _ _ _ _ Hall Hpick Hs1) as (_ & _ & Hlt).
    pose proof (propagate_extends _ _ _ _ Hp) as Hext.
    pose proof (extends_unassigned_count f _ _ Hext) as Hle.
    destruct Hext as [Hl _].
    pose proof (search_length _ _ _ _ Hsearch) as Hl3.
    pose proof (search_unsat_count _ _ _ _ Hsearch eq_refl) as Hle3.
    destruct (store_unassigned_count f _ _ _ _ Hs2) as [Hle2 _].
    specialize (Hle2 ltac:(done)).
    apply store_length in Hs1, Hs2. split; [congruence|lia].
Qed.

Lemma decision_store (f : Formula) (a1 : list Z) :
  allAssigned_loop (seqZ 1 (numVariables f)) a1 true = Ok false →
  ∃ var a2, pickUnassigned f a1 = Ok var ∧
            store a1 (Z.abs var) 1 = Some a2.
Proof.
  intros Hall. destruct (pick_after_check _ _ Hall) as (var & Hp & Hin & Hz).
  apply elem_of_seqZ in Hin. apply is_unassigned_Some in Hz.
  assert (is_Some (store a1 (Z.abs var) 1)) as [a2 Hs].
  { apply store_is_Some. replace (Z.abs var) with var by lia.
    apply subscript_is_Some. by eexists. }
  by exists var, a2.
Qed.

(** With more fuel than unassigned variables [DPLL] returns; when every
    subscript is in range it returns a verdict. *)
Lemma DPLL_result (fuel : nat) (f : Formula) (a : list Z) :
  (unassigned_count f a < fuel)%nat →
  DPLL fuel f a ≠ Timeout ∧
  (in_bounds f (length a) → ∃ b a', DPLL fuel f a = Ok (b, a')).
Proof.
  revert a. induction fuel as [|fuel IH]; intros a Hc; [lia|].
  cbn [DPLL].
  pose proof (propagate_returns f a) as Hpnt.
  destruct (propagate f a) as [[result a1]|e|] eqn:Ep; cbn; [| |done].
  2:{ split; [done|]. intros Hb.
      destruct (propagate_Ok f a Hb) as (b & a' & Hr). congruence. }
  pose proof (propagate_extends _ _ _ _ Ep) as Hext.
  pose proof (extends_unassigned_count f _ _ Hext) as Hle1.
  destruct Hext as [Hl1 _].
  destruct result; cbn.
  2:{ split; [done|]. by eexists _, _. }
  destruct (allAssigned_loop_result (seqZ 1 (numVariables f)) a1 true)
    as [Hant Haok].
  destruct (allAssigned_loop (seqZ 1 (numVariables f)) a1 true)
    as [[|]|e|] eqn:Ea; cbn; [| | |done].
  - split; [done|]. by eexists _, _.
  - destruct (decision_store _ _ Ea) as (var & a2 & Hpick & Hs1).
    rewrite Hpick. cbn. rewrite Hs1. cbn.
    destruct (decision_fills _ _ _ _ Ea Hpick Hs1) as (Habs & Hr & Hlt).
    pose proof (store_length _ _ _ _ Hs1) as Hl2.
    apply store_Some in Hs1 as [Hin _].
    destruct (IH a2) as [Hnt2 Hok2]; [lia|].
    destruct (DPLL fuel f a2) as [[found a3]|e|] eqn:E2; cbn; [| |done].
    2:{ split; [done|]. intros Hb.
        destruct Hok2 as (? & ? & ?); [by rewrite Hl2, Hl1|congruence]. }
    destruct found.
    { split; [done|]. by eexists _, _. }
    apply DPLL_search in E2.
    pose proof (search_length _ _ _ _ E2) as Hl3.
    pose proof (search_unsat_count _ _ _ _ E2 eq_refl) as Hle3.
    assert (is_Some (store a3 (Z.abs var) (-1))) as [a4 Hs2].
    { apply store_is_Some. lia. }
    rewrite Hs2. cbn.
    destruct (store_unassigned_count f _ _ _ _ Hs2) as [Hle4 _].
    specialize (Hle4 ltac:(done)).
    pose proof (store_length _ _ _ _ Hs2) as Hl4.
    destruct (IH a4) as [Hnt4 Hok4]; [lia|].
    destruct (DPLL fuel f a4) as [[found a5]|e|] eqn:E4; cbn; [| |done].
    2:{ split; [done|]. intros Hb.
        destruct Hok4 as (? & ? & ?); [|congruence].
        by rewrite Hl4, Hl3, Hl2, Hl1. }
    destruct found.
    { split; [done|]. by eexists _, _. }
    apply DPLL_search in E4.
    pose proof (search_length _ _ _ _ E4) as Hl5.
    assert (is_Some (store a5 (Z.abs var) 0)) as [a6 Hs3].
    { apply store_is_Some. lia. }
    rewrite Hs3. cbn. split; [done|]. by eexists _, _.
  - split; [done|]. intros (_ & Hnv & _).
    destruct Haok as [? ?]; [|congruence].
    intros i Hi%elem_of_seqZ. apply subscript_is_Some. lia.
Qed.

(** ** The three-valued entries *)

Lemma tri_state_store (a : list Z) (i x : Z) (a' : list Z) :
  tri_state a → store a i x = Some a' → x = 1 ∨ x = -1 ∨ x = 0 →
  tri_state a'.
Proof.
  intros Ht Hs Hx j val Hj. rewrite (lookup_store _ _ _ _ _ Hs).
  case_decide; [by intros [= <-]|by apply Ht].
Qed.

Lemma tri_state_sweep (f : Formula) (idx : list Z) (a : list Z) (ch : bool)
    (s : Sweep) (a' : list Z) :
  tri_state a → sweep f idx a ch = Ok (s, a') → tri_state a'.
Proof.
  revert a ch. induction idx as [|i idx IH]; intros a ch Ht H.
  - by injection H as _ <-.
  - apply sweep_cons in H
      as (clause & sat & u & _ & _ & [[_ H]|[(_ & _ & H)|[(_ & H)|(_ & _ & H)]]]).
    + by eapply IH.
    + by injection H as _ <-.
    + destruct H as (lit & a1 & _ & _ & Hs & H).
      eapply IH; [|exact H]. eapply tri_state_store; [done|exact Hs|].
      destruct (0 <? lit); auto.
    + by eapply IH.
Qed.

Lemma tri_state_propagate (f : Formula) (a : list Z) (b : bool) (a' : list Z) :
  tri_state a → propagate f a = Ok (b, a') → tri_state a'.
Proof.
  unfold propagate. generalize (S (length a)) as fuel. intros fuel.
  revert a. induction fuel as [|fuel IH]; intros a Ht H; [done|].
  cbn [propagate_loop] in H. bind_inv H. destruct x as [s a1].
  apply tri_state_sweep in E; [|done]. destruct s as [[|]|].
  - by eapply IH.
  - by injection H as _ <-.
  - by injection H as _ <-.
Qed.

Lemma tri_state_search (f : Formula) (a : list Z) (b : bool) (a' : list Z) :
  search f a b a' → tri_state a → tri_state a'.
Proof.
  induction 1; intros Ht;
    repeat match goal with
           | H : propagate _ _ = Ok _ |- _ =>
               apply tri_state_propagate in H; [|done]
           | H : store ?a _ ?x = Some _, Ht : tri_state ?a |- _ =>
               apply (tri_state_store _ _ x _ Ht) in H; [|by auto]
           | IH : tri_state ?a → _, Ht : tri_state ?a |- _ =>
               specialize (IH Ht)
           end; done.
Qed.

(** ** Models *)

Lemma stable_complete_model (f : Formula) (a : list Z) :
  numClauses f = Z.of_nat (length (clauses f)) →
  (∀ clause, clause ∈ clauses f → 0 ∉ clause) →
  Z.of_nat (length a) = numVariables f + 1 →
  tri_state a →
  sweep f (seqZ 0 (numClauses f)) a false = Ok (Completed false, a) →
  allAssigned_loop (seqZ 1 (numVariables f)) a true = Ok true →
  is_model f a.
Proof.
  intros Hnc Hnz Hlen Htri Hsweep Hall.
  pose proof (allAssigned_loop_true _ _ Hall) as Hass.
  apply sweep_quiet in Hsweep as [_ Hq].
  split.
  - intros v Hv.
    assert (is_assigned a v = true) as Hv'.
    { apply Hass, elem_of_seqZ. lia. }
    unfold is_assigned in Hv'.
    destruct (subscript a v) as [val|] eqn:E; [|done].
    apply negb_true_iff, Z.eqb_neq in Hv'.
    apply subscript_Some in E as [_ E].
    destruct (Htri (Z.to_nat v) val) as [-> | [-> | ->] ]; auto; lia.
  - intros clause Hin.
    apply list_elem_of_lookup in Hin as [k Hk].
    destruct (Hq (Z.of_nat k)) as (clause' & Hc & Hcase).
    { apply elem_of_seqZ. apply lookup_lt_Some in Hk. lia. }
    rewrite subscript_nat, Hk in Hc. injection Hc as <-.
    destruct Hcase as [Ht|(u & Hs & Hu)].
    + apply existsb_exists in Ht as (lit & Hl & Ht).
      exists lit. split; [by apply list_elem_of_In|done].
    + apply scan_spec in Hs as [_ Hs].
      destruct (Hs eq_refl) as (u' & -> & HF). cbn in Hu.
      destruct u' as [|lit u']; [cbn in Hu; lia|].
      apply Forall_cons in HF as [[Hl Hz] _].
      assert (lit ≠ 0) as Hne.
      { intros ->. by apply (Hnz clause); [eapply list_elem_of_lookup_2|]. }
      assert (is_Some (subscript a (Z.abs lit))) as Hr%subscript_is_Some.
      { apply is_unassigned_Some in Hz. by eexists. }
      assert (is_assigned a (Z.abs lit) = true) as Ha.
      { apply Hass, elem_of_seqZ. lia. }
      unfold is_assigned in Ha. unfold is_unassigned in Hz.
      destruct (subscript a (Z.abs lit)); [|done].
      rewrite Hz in Ha. done.
Qed.

(** ** [solve] and [run] *)

Lemma solve_search (f : Formula) (a : list Z) (b : bool) (a' : list Z) :
  solve f a = Ok (b, a') →
  ∃ a0, reset_loop (seqZ 1 (numVariables f)) a = Ok a0 ∧ search f a0 b a'.
Proof.
  intros H. unfold solve in H. bind_inv H. apply DPLL_search in H. eauto.
Qed.

Lemma unassigned_count_bound (f : Formula) (a : list Z) :
  (unassigned_count f a ≤ Z.to_nat (numVariables f))%nat.
Proof.
  unfold unassigned_count. rewrite <- (length_seqZ 1).
  apply count_le_length.
Qed.

Lemma solve_returns (f : Formula) (a : list Z) : solve f a ≠ Timeout.
Proof.
  unfold solve.
  destruct (reset_loop_result (seqZ 1 (numVariables f)) a) as [Hnt _].
  destruct (reset_loop _ a) as [a0|e|]; cbn [mbind Res_bind]; [|done|done].
  apply DPLL_result. pose proof (unassigned_count_bound f a0). lia.
Qed.

Lemma new_length (f : Formula) (a : list Z) :
  new f = Ok a → Z.of_nat (length a) = numVariables f + 1.
Proof.
  unfold new. case_decide; [done|]. case_decide; [|done]. intros [= <-].
  rewrite length_replicate. lia.
Qed.

Lemma in_range_in_bounds (f : Formula) (n : nat) :
  in_range f = true → Z.of_nat n = numVariables f + 1 → in_bounds f n.
Proof.
  unfold in_range. rewrite !andb_true_iff, !Z.leb_le, forallb_forall.
  intros [[[[Hnv _] Hnc] Hle] Hlit] Hn. split; [lia|]. split; [lia|].
  intros clause lit Hc%list_elem_of_In Hl%list_elem_of_In.
  specialize (Hlit clause Hc). rewrite forallb_forall in Hlit.
  specialize (Hlit lit Hl). lia.
Qed.

Lemma no_zero_literal_spec (f : Formula) :
  no_zero_literal f = true → ∀ clause, clause ∈ clauses f → 0 ∉ clause.
Proof.
  unfold no_zero_literal. rewrite forallb_forall.
  intros H clause Hc%list_elem_of_In Hz%list_elem_of_In.
  specialize (H clause Hc). rewrite forallb_forall in H.
  by specialize (H 0 Hz).
Qed.

Lemma solve_Ok (f : Formula) (a : list Z) :
  in_bounds f (length a) → ∃ b a', solve f a = Ok (b, a').
Proof.
  intros Hb. unfold solve.
  destruct (reset_loop_result (seqZ 1 (numVariables f)) a) as [_ Hok].
  destruct Hok as [a0 Hr].
  { intros i Hi%elem_of_seqZ. destruct Hb as (_ & ? & _). lia. }
  rewrite Hr. cbn [mbind Res_bind]. apply reset_loop_spec in Hr as [Hl _].
  apply DPLL_result; [|by rewrite Hl].
  pose proof (unassigned_count_bound f a0). lia.
Qed.

Lemma run_Ok (f : Formula) :
  in_range f = true → ∃ b a', run f = Ok (b, a').
Proof.
  intros Hr. unfold run.
  destruct (new f) as [a|e|] eqn:En; cbn [mbind Res_bind].
  - apply solve_Ok, in_range_in_bounds; [done|by apply new_length].
  - unfold in_range in Hr.
    rewrite !andb_true_iff, !Z.leb_le, Z.ltb_lt in Hr.
    unfold new in En. repeat case_decide; try done; lia.
  - unfold new in En. by repeat case_decide.
Qed.

(** A vector reset by [solve] holds 0 in every variable entry. *)
Lemma reset_tri_state (f : Formula) (a a0 : list Z) :
  Z.of_nat (length a) = numVariables f + 1 →
  reset_loop (seqZ 1 (numVariables f)) a = Ok a0 →
  tri_state a0.
Proof.
  intros Hlen [Hl H]%reset_loop_spec j val Hj. rewrite H.
  case_decide as Hin; [intros [= <-]; auto|].
  intros Hs%lookup_lt_Some. destruct Hin. apply elem_of_seqZ. lia.
Qed.

Lemma solve_sat_model (f : Formula) (a a' : list Z) :
  numClauses f = Z.of_nat (length (clauses f)) →
  (∀ clause, clause ∈ clauses f → 0 ∉ clause) →
  Z.of_nat (length a) = numVariables f + 1 →
  solve f a = Ok (true, a') → is_model f a'.
Proof.
  intros Hnc Hnz Hlen (a0 & Hr & Hs)%solve_search.
  pose proof (reset_tri_state _ _ _ Hlen Hr) as Ht.
  apply reset_loop_spec in Hr as [Hl0 _].
  pose proof (search_length _ _ _ _ Hs) as Hl.
  destruct (search_sat _ _ _ _ Hs eq_refl) as [Hst Hall].
  apply stable_complete_model; try done.
  - congruence.
  - by eapply tri_state_search.
Qed.

Lemma reset_loop_agree (idx : list Z) (a1 a2 : list Z) :
  length a1 = length a2 →
  (∀ j : nat, Z.of_nat j ∉ idx → a1 !! j = a2 !! j) →
  reset_loop idx a1 = reset_loop idx a2.
Proof.
  revert a1 a2. induction idx as [|i idx IH]; intros a1 a2 Hl H.
  - cbn. f_equal. apply list_eq. intros j. apply H. by intros ?%elem_of_nil.
  - cbn [reset_loop]. unfold store. rewrite Hl.
    case_decide as Hi; [|done]. cbn [or_crash mbind Res_bind].
    apply IH; [by rewrite !length_insert|].
    intros j Hj. destruct (decide (j = Z.to_nat i)) as [->|Hne].
    + rewrite !list_lookup_insert_eq by lia. done.
    + rewrite !list_lookup_insert_ne by done. apply H.
      intros [Heq|?]%elem_of_cons; [lia|done].
Qed.

(** ** The parser *)

Lemma skipws_length (s : string) :
  (String.length (CNFParser.skipws s) ≤ String.length s)%nat.
Proof.
  induction s as [|c s IH]; cbn; [lia|].
  destruct (CNFParser.isspace c); cbn; lia.
Qed.

Lemma digits_length (s : string) (acc : Z) (seen : bool)
    (n : Z) (seen' : bool) (r : string) :
  CNFParser.digits s acc seen = (n, seen', r) →
  (String.length r ≤ String.length s)%nat ∧
  (seen = false → seen' = true → (String.length r < String.length s)%nat).
Proof.
  revert acc seen. induction s as [|c s IH]; intros acc seen H; cbn in H.
  - injection H as _ <- <-. split; [done|congruence].
  - destruct (CNFParser.isdigit c).
    + apply IH in H as [H _]. cbn. split; lia.
    + injection H as _ <- <-. split; [done|congruence].
Qed.

(** An extraction of an [int] that succeeds consumes a character. *)
Lemma get_int_consumes (st : CNFParser.istream) (old : Z)
    (st' : CNFParser.istream) (v : Z) :
  CNFParser.get_int st old = (st', v) → CNFParser.failbit st' = false →
  (String.length (CNFParser.unread st')
   < String.length (CNFParser.unread st))%nat.
Proof.
  unfold CNFParser.get_int. intros H Hok.
  destruct (CNFParser.failbit st) eqn:Ef; [injection H as <- _; congruence|].
  pose proof (skipws_length (CNFParser.unread st)) as Hws.
  destruct (CNFParser.skipws (CNFParser.unread st)) as [|c rest] eqn:Es.
  { injection H as <- _. done. }
  cbn [String.length] in Hws.
  assert (∀ body : string,
            (String.length body ≤ S (String.length rest))%nat →
            ∀ sign : bool,
            (let '(n, seen, r) := CNFParser.digits body 0 false in
             if negb seen then (CNFParser.mkStream r true, 0)
             else let v := if sign then - n else n in
                  if v <? INT_MIN
                  then (CNFParser.mkStream r true, INT_MIN)
                  else if INT_MAX <? v
                       then (CNFParser.mkStream r true, INT_MAX)
                       else (CNFParser.mkStream r false, v)) = (st', v) →
            (String.length (CNFParser.unread st')
             < String.length (CNFParser.unread st))%nat) as Hbody.
  { intros body Hb sign Hd.
    destruct (CNFParser.digits body 0 false) as [[n seen] r] eqn:Ed.
    apply digits_length in Ed as [_ Hlt].
    destruct seen; cbn [negb] in Hd; [|injection Hd as <- _; done].
    specialize (Hlt eq_refl eq_refl).
    repeat case_match; injection Hd as <- _; cbn in *; try done; lia. }
  destruct (Ascii.eqb c "-"); [|destruct (Ascii.eqb c "+")].
  - apply (Hbody rest ltac:(lia) true H).
  - apply (Hbody rest ltac:(lia) false H).
  - apply (Hbody (String c rest) ltac:(cbn; lia) false H).
Qed.

(** The loop of [parseClause] ends within the fuel it is given. *)
Lemma parseClause_loop_returns (fuel : nat) (st : CNFParser.istream) (p : Z)
    (out : list Z) :
  (String.length (CNFParser.unread st) < fuel)%nat →
  is_Some (CNFParser.parseClause_loop fuel st p out).
Proof.
  revert st p out. induction fuel as [|fuel IH]; intros st p out Hf; [lia|].
  cbn [CNFParser.parseClause_loop].
  destruct (CNFParser.get_int st p) as [st' v] eqn:Eg.
  destruct (CNFParser.failbit st') eqn:Ef; [by eexists|].
  destruct (v =? 0); [by eexists|].
  apply IH. pose proof (get_int_consumes _ _ _ _ Eg Ef). lia.
Qed.

Lemma parseClause_loop_enough (line : string) :
  is_Some (CNFParser.parseClause_loop (S (String.length line))
             (CNFParser.mkStream line false) 0 []).
Proof. apply parseClause_loop_returns. cbn. lia. Qed.

Lemma parseClause_loop_nonzero (fuel : nat) (st : CNFParser.istream) (p : Z)
    (out r : list Z) :
  CNFParser.parseClause_loop fuel st p out = Some r → 0 ∉ out → 0 ∉ r.
Proof.
  revert st p out. induction fuel as [|fuel IH]; intros st p out H Hout;
    [done|].
  cbn [CNFParser.parseClause_loop] in H.
  destruct (CNFParser.get_int st p) as [st' v].
  destruct (CNFParser.failbit st'); [by injection H as <-|].
  destruct (v =? 0) eqn:Ev; [by injection H as <-|].
  apply IH in H; [done|]. apply Z.eqb_neq in Ev.
  intros [?|?%list_elem_of_singleton]%elem_of_app; done.
Qed.

(** [parseClause] never delivers the literal 0. *)
Lemma parseClause_nonzero (line : string) : 0 ∉ CNFParser.parseClause line.
Proof.
  unfold CNFParser.parseClause.
  destruct (CNFParser.parseClause_loop _ _ _ _) as [r|] eqn:E; cbn.
  - eapply parseClause_loop_nonzero; [exact E|]. by intros ?%elem_of_nil.
  - by intros ?%elem_of_nil.
Qed.

Lemma parse_line_clauses (st : CNFParser.Locals) (line : string) :
  Forall (λ clause, clause ≠ [] ∧ 0 ∉ clause)
         (clauses (CNFParser.formula st)) →
  Forall (λ clause, clause ≠ [] ∧ 0 ∉ clause)
         (clauses (CNFParser.formula (CNFParser.parse_line st line))).
Proof.
  intros H. unfold CNFParser.parse_line.
  destruct (CNFParser.isSkippable line); [done|].
  destruct (_ && _).
  - by destruct (CNFParser.parseHeader _ _ _) as [[? ?] ?].
  - pose proof (parseClause_nonzero line) as Hnz.
    destruct (CNFParser.parseClause line) as [|lit clause]; [done|].
    cbn. apply Forall_app. split; [done|]. by repeat constructor.
Qed.

(** Every clause that [parse] stores is non-empty and free of 0. *)
Lemma parse_clauses (nv0 nc0 : Z) (file : option string) :
  Forall (λ clause, clause ≠ [] ∧ 0 ∉ clause)
         (clauses (fst (CNFParser.parse nv0 nc0 file))).
Proof.
  unfold CNFParser.parse. cbn [fst].
  generalize (match file with
              | Some content => CNFParser.getlines content "" false
              | None => []
              end) as lines.
  intros lines.
  assert (Forall (λ clause : list Z, clause ≠ [] ∧ 0 ∉ clause)
            (clauses (CNFParser.formula
               (CNFParser.mkLocals (mkFormula nv0 nc0 []) false [])))) as H0
    by constructor.
  revert H0. generalize (CNFParser.mkLocals (mkFormula nv0 nc0 []) false []).
  induction lines as [|line lines IH]; intros st H; [done|].
  cbn [fold_left]. by apply IH, parse_line_clauses.
Qed.

Lemma assigned_count_grows (f : Formula) (a b : list Z) :
  length b = length a →
  (unassigned_count f b < unassigned_count f a)%nat →
  (assigned_count f a < assigned_count f b)%nat.
Proof.
  intros Hl Hlt. unfold assigned_count, unassigned_count in *.
  pose proof (count_split a (seqZ 1 (numVariables f))) as Ha.
  pose proof (count_split b (seqZ 1 (numVariables f))) as Hb.
  rewrite (count_outside a b _ Hl) in Hb. lia.
Qed.

(** An empty clause among the first [numClauses] makes [DPLL] return false
    whenever it returns a verdict. *)
Lemma DPLL_empty_clause (fuel : nat) (f : Formula) (a : list Z) (k : Z)
    (b : bool) (a' : list Z) :
  0 ≤ k < numClauses f → subscript (clauses f) k = Some [] →
  DPLL fuel f a = Ok (b, a') → b = false.
Proof.
  intros Hk Hc H. destruct fuel as [|fuel]; [done|].
  cbn [DPLL] in H. bind_inv H. destruct x as [result a1].
  apply (propagate_loop_empty_clause _ _ _ k) in E; [|by apply elem_of_seqZ; lia|done].
  subst result. by injection H as <- _.
Qed.

(** * The claims *)

(** C1 (the code departs from the claim).  A call of [DPLL] that returns
    UNSAT does not restore the assignment vector it was entered with: the
    values forced by unit propagation stay.  On the clauses [1] and [-1] the
    call entered with every variable unassigned leaves variable 1 set to
    true; on (-1 or 2), (-1 or -2), (1 or -2) the call entered after the
    decision 1 = true leaves variable 2 set to true. *)
Theorem DPLL_unsat_keeps_forced_values :
  DPLL 2 units_formula [0; 0] = Ok (false, [0; 1]) ∧
  DPLL 3 stale_formula [0; 1; 0] = Ok (false, [0; 1; 1]).
Proof. split; vm_compute; reflexivity. Qed.

(** C2 (the code departs from the claim).  On (-1 or 2), (-1 or -2),
    (1 or -2) the solver answers UNSAT, leaving variable 2 set to true from
    the failed branch 1 = true, while brute-force enumeration finds a
    satisfying total assignment (1 = false, 2 = false). *)
Theorem solve_unsat_on_satisfiable_formula :
  run stale_formula = Ok (false, [0; 0; 1]) ∧
  brute_force stale_formula = true ∧
  forallb (clause_true [0; -1; -1]) (clauses stale_formula) = true.
Proof. repeat split; vm_compute; reflexivity. Qed.

(** C3 (the code departs from the claim).  Parsing the header [p cnf 2 3]
    stores the first number, 2, in [numClauses] and the second, 3, in
    [numVariables]: [parse] passes the two fields to [parseHeader] in the
    opposite order of its parameters. *)
Theorem parse_header_swaps_counts (nv0 nc0 : Z) :
  CNFParser.parse nv0 nc0 (Some header_file) = (mkFormula 3 2 [], []).
Proof. reflexivity. Qed.

(** C4 as stated fails: for the file with header [p cnf 1 1] and the clause
    line [0], the formula that [parse] returns holds no empty clause. *)
Lemma parse_omits_empty_clause :
  [] ∉ clauses (fst (CNFParser.parse 0 0 (Some empty_clause_file))).
Proof. vm_compute. by intros ?%elem_of_nil. Qed.

(** C4 (amended).  The parser never stores an empty clause, whatever the
    file; and for every formula whose subscripts are in range and that holds
    an empty clause among its first [numClauses] clauses, the solver returns
    UNSAT. *)
Theorem empty_clause_dropped_by_parse_unsat_in_solve
    (nv0 nc0 : Z) (file : option string) (f : Formula) (k : Z) :
  in_range f = true →
  0 ≤ k < numClauses f →
  subscript (clauses f) k = Some [] →
  ([] ∉ clauses (fst (CNFParser.parse nv0 nc0 file))) ∧
  ∃ a', run f = Ok (false, a').
Proof.
  intros Hr Hk Hc. split.
  - intros Hin. pose proof (parse_clauses nv0 nc0 file) as HF.
    rewrite Forall_forall in HF. by destruct (HF _ Hin).
  - destruct (run_Ok f Hr) as (b & a' & Hrun). exists a'.
    enough (b = false) by congruence.
    unfold run in Hrun. bind_inv Hrun. unfold solve in Hrun. bind_inv Hrun.
    by eapply DPLL_empty_clause.
Qed.

Lemma empty_clause_dropped_by_parse_unsat_in_solve_witness :
  in_range empty_clause_formula = true ∧
  0 ≤ 1 < numClauses empty_clause_formula ∧
  subscript (clauses empty_clause_formula) 1 = Some [] ∧
  ([] ∉ clauses (fst (CNFParser.parse 0 0 (Some empty_clause_file)))) ∧
  ∃ a', run empty_clause_formula = Ok (false, a').
Proof.
  assert (in_range empty_clause_formula = true) as H1 by reflexivity.
  assert (0 ≤ 1 < numClauses empty_clause_formula) as H2 by (simpl; lia).
  assert (subscript (clauses empty_clause_formula) 1 = Some []) as H3
    by reflexivity.
  split; [exact H1|]. split; [exact H2|]. split; [exact H3|].
  exact (empty_clause_dropped_by_parse_unsat_in_solve
           0 0 (Some empty_clause_file) empty_clause_formula 1 H1 H2 H3).
Defined.

(** C5.  For every formula whose [numClauses] equals the number of stored
    clauses and whose literals are non-zero, if [solve], started on a vector
    of [numVariables + 1] entries, returns SAT, then the assignment it
    leaves is a complete model: every variable [1..numVariables] holds 1 or
    -1, and every clause has a literal that evaluates to true. *)
Theorem solve_sat_returns_complete_model (f : Formula) (a a' : list Z) :
  numClauses f = Z.of_nat (length (clauses f)) →
  no_zero_literal f = true →
  Z.of_nat (length a) = numVariables f + 1 →
  solve f a = Ok (true, a') →
  (∀ v, 1 ≤ v ≤ numVariables f →
        subscript a' v = Some 1 ∨ subscript a' v = Some (-1)) ∧
  (∀ clause, clause ∈ clauses f →
        ∃ lit, lit ∈ clause ∧ lit_true a' lit = true).
Proof.
  intros Hnc Hnz Hlen Hs.
  by apply (solve_sat_model f a a' Hnc (no_zero_literal_spec f Hnz) Hlen).
Qed.

Lemma solve_sat_returns_complete_model_witness :
  numClauses scenario1 = Z.of_nat (length (clauses scenario1)) ∧
  no_zero_literal scenario1 = true ∧
  Z.of_nat (length [0; 1; 1]) = numVariables scenario1 + 1 ∧
  solve scenario1 [0; 1; 1] = Ok (true, [0; 1; -1]) ∧
  (∀ v, 1 ≤ v ≤ numVariables scenario1 →
        subscript [0; 1; -1] v = Some 1 ∨ subscript [0; 1; -1] v = Some (-1)) ∧
  (∀ clause, clause ∈ clauses scenario1 →
        ∃ lit, lit ∈ clause ∧ lit_true [0; 1; -1] lit = true).
Proof.
  split; [reflexivity|]. split; [reflexivity|]. split; [reflexivity|].
  split; [reflexivity|].
  apply (solve_sat_returns_complete_model scenario1 [0; 1; 1] [0; 1; -1]);
    reflexivity.
Defined.

(** C6 (the code departs from the claim).  For a file whose header is
    [p dnf 2 1], [parse] prints [Invalid header] and still returns a
    formula, with the fields read from that header and the clause that
    follows it; nothing is rejected. *)
Theorem parse_accepts_invalid_header (nv0 nc0 : Z) :
  CNFParser.parse nv0 nc0 (Some bad_header_file)
  = (mkFormula 1 2 [[1; 2]], ["Invalid header"%string]).
Proof. reflexivity. Qed.

(** C7.  When [numClauses] is at most the number of clauses stored,
    [propagate] never reads [formula.clauses] outside its range, whatever
    the assignment vector.  The parser can break that precondition: for the
    header [p cnf 1 1] followed by the clause line [0] it returns a formula
    that declares one clause and stores none, and on it the solver's first
    read of [formula.clauses[0]] is out of range. *)
Theorem propagate_clause_subscript_in_bounds :
  (∀ f a, numClauses f ≤ Z.of_nat (length (clauses f)) →
          propagate f a ≠ Crash ClauseIndex) ∧
  (∀ nv0 nc0,
     let f := fst (CNFParser.parse nv0 nc0 (Some empty_clause_file)) in
     Z.of_nat (length (clauses f)) < numClauses f ∧
     run f = Crash ClauseIndex).
Proof.
  split.
  - intros f a Hle.
    by apply (propagate_loop_result (S (length a)) f a (propagate_fuel a)).
  - intros nv0 nc0. split; [reflexivity|]. vm_compute. reflexivity.
Qed.

Lemma propagate_clause_subscript_in_bounds_witness :
  numClauses units_formula ≤ Z.of_nat (length (clauses units_formula)) ∧
  propagate units_formula [0; 0] ≠ Crash ClauseIndex.
Proof.
  assert (numClauses units_formula
          ≤ Z.of_nat (length (clauses units_formula))) as H by (simpl; lia).
  split; [exact H|].
  exact (proj1 propagate_clause_subscript_in_bounds units_formula [0; 0] H).
Defined.

(** C8.  [solve] is a function of the formula alone: started on any two
    vectors of [numVariables + 1] entries that agree on the reserved entry
    0, it returns the same verdict and leaves the same assignment, whatever
    the variables held before.  The decision is fixed: [pickUnassigned]
    returns the lowest-numbered unassigned variable; and the value true is
    tried first: when the call made after setting the variable to 1 answers
    SAT, that answer is returned. *)
Theorem solve_deterministic (f : Formula) (a1 a2 : list Z) :
  Z.of_nat (length a1) = numVariables f + 1 →
  Z.of_nat (length a2) = numVariables f + 1 →
  a1 !! 0%nat = a2 !! 0%nat →
  solve f a1 = solve f a2 ∧
  (∀ a var, pickUnassigned f a = Ok var → var ≠ -1 →
     1 ≤ var ≤ numVariables f ∧ is_unassigned a var = true ∧
     ∀ j, 1 ≤ j < var → is_assigned a j = true) ∧
  (∀ fuel a b var c a',
     propagate f a = Ok (true, b) →
     allAssigned_loop (seqZ 1 (numVariables f)) b true = Ok false →
     pickUnassigned f b = Ok var →
     store b (Z.abs var) 1 = Some c →
     DPLL fuel f c = Ok (true, a') →
     DPLL (S fuel) f a = Ok (true, a')).
Proof.
  intros Hl1 Hl2 H0. split; [|split].
  - unfold solve. rewrite (reset_loop_agree _ a1 a2); [done|lia|].
    intros j Hj. destruct j as [|j]; [done|].
    rewrite !lookup_ge_None_2; [done| |].
    + destruct (decide (length a2 ≤ S j)%nat); [done|].
      destruct Hj. apply elem_of_seqZ. lia.
    + destruct (decide (length a1 ≤ S j)%nat); [done|].
      destruct Hj. apply elem_of_seqZ. lia.
  - apply pickUnassigned_lowest.
  - intros fuel a b var c a' Hp Hall Hpick Hs HD.
    cbn [DPLL]. rewrite Hp. cbn [mbind Res_bind negb]. rewrite Hall.
    cbn [mbind Res_bind]. rewrite Hpick. cbn [mbind Res_bind].
    rewrite Hs. cbn [mbind Res_bind or_crash]. by rewrite HD.
Qed.

Lemma solve_deterministic_witness :
  Z.of_nat (length [0; 1; 1]) = numVariables scenario1 + 1 ∧
  Z.of_nat (length [0; -1; 0]) = numVariables scenario1 + 1 ∧
  [0; 1; 1] !! 0%nat = [0; -1; 0] !! 0%nat ∧
  solve scenario1 [0; 1; 1] = solve scenario1 [0; -1; 0].
Proof.
  split; [reflexivity|]. split; [reflexivity|]. split; [reflexivity|].
  exact (proj1 (solve_deterministic scenario1 [0; 1; 1] [0; -1; 0]
                  eq_refl eq_refl eq_refl)).
Defined.

(** C9.  The search terminates.  Each recursive call of [DPLL] is entered
    with strictly more assigned variables than the call that makes it;
    hence [DPLL] returns whenever its depth bound exceeds [numVariables],
    [solve] always returns, and for a formula whose subscripts are in range
    it returns a verdict. *)
Theorem DPLL_terminates (f : Formula) :
  (∀ a b, recursive_call f a b →
          (assigned_count f a < assigned_count f b)%nat) ∧
  (∀ a fuel, (Z.to_nat (numVariables f) < fuel)%nat →
             DPLL fuel f a ≠ Timeout) ∧
  (∀ a, solve f a ≠ Timeout) ∧
  (in_range f = true → ∃ b a', run f = Ok (b, a')).
Proof.
  split; [|split; [|split]].
  - intros a b [Hl Hlt]%recursive_call_unassigned.
    by apply assigned_count_grows.
  - intros a fuel Hf. apply DPLL_result.
    pose proof (unassigned_count_bound f a). lia.
  - apply solve_returns.
  - apply run_Ok.
Qed.

Lemma DPLL_terminates_witness :
  recursive_call scenario1 [0; 0; 0] [0; 1; 0] ∧
  (assigned_count scenario1 [0; 0; 0]%Z
   < assigned_count scenario1 [0; 1; 0]%Z)%nat ∧
  in_range scenario1 = true ∧
  ∃ b a', run scenario1 = Ok (b, a').
Proof.
  assert (recursive_call scenario1 [0; 0; 0] [0; 1; 0]) as H
    by (apply (call_true scenario1 [0; 0; 0] [0; 0; 0] 1 [0; 1; 0]);
        reflexivity).
  split; [exact H|].
  split; [exact (proj1 (DPLL_terminates scenario1) _ _ H)|].
  split; [reflexivity|].
  exact (proj2 (proj2 (proj2 (DPLL_terminates scenario1))) eq_refl).
Defined.

(** C10.  Unit propagation never changes the value of an assigned
    variable.  The literal whose variable [propagate] writes is the single
    unassigned literal that the scan of the clause found, so that variable
    holds 0 when it is written; and whenever [propagate] returns, every
    entry that held a non-zero value holds the same value afterwards, the
    vector keeping its length. *)
Theorem propagate_keeps_assigned_values
    (f : Formula) (a : list Z) (b : bool) (a' : list Z) :
  propagate f a = Ok (b, a') →
  (∀ c clause lit, scan c clause [] = Ok (false, [lit]) →
                   subscript c (Z.abs lit) = Some 0) ∧
  length a' = length a ∧
  (∀ i val, subscript a i = Some val → val ≠ 0 → subscript a' i = Some val).
Proof.
  intros Hext%propagate_extends. split; [|split].
  - intros c clause lit [_ Hu]%scan_spec.
    destruct (Hu eq_refl) as (u' & Hu' & HF). cbn in Hu'. subst u'.
    apply Forall_cons in HF as [[_ Hz] _]. by apply is_unassigned_Some.
  - by destruct Hext.
  - intros i val. by apply extends_subscript.
Qed.

Lemma propagate_keeps_assigned_values_witness :
  propagate scenario1 [0; 1; 0] = Ok (true, [0; 1; -1]) ∧
  length [0; 1; -1] = length [0; 1; 0] ∧
  (∀ i val, subscript [0; 1; 0] i = Some val → val ≠ 0 →
            subscript [0; 1; -1] i = Some val).
Proof.
  assert (propagate scenario1 [0; 1; 0] = Ok (true, [0; 1; -1])) as H
    by reflexivity.
  split; [exact H|].
  exact (proj2 (propagate_keeps_assigned_values
                  scenario1 [0; 1; 0] true [0; 1; -1] H)).
Defined.

(** * Further properties of the solver *)

Lemma bind_ext {A B} (r : Res A) (k k' : A → Res B) :
  (∀ x, k x = k' x) → r ≫= k = r ≫= k'.
Proof. intros H. destruct r; cbn; [apply H|done|done]. Qed.

(** A scan that does not find the clause satisfied has read every literal:
    none evaluates to true, and the unassigned ones are all collected. *)
Lemma scan_false_all (a : list Z) (clause acc u : list Z) :
  scan a clause acc = Ok (false, u) →
  (∀ lit, lit ∈ acc → lit ∈ u) ∧
  ∀ lit, lit ∈ clause →
    lit_true a lit = false ∧
    is_Some (subscript a (Z.abs lit)) ∧
    (is_unassigned a (Z.abs lit) = true → lit ∈ u).
Proof.
  revert acc. induction clause as [|l rest IH]; intros acc H.
  - injection H as <-. split; [done|]. by intros lit ?%elem_of_nil.
  - cbn [scan] in H. bind_inv H.
    destruct (_ || _) eqn:Et in H; [done|].
    assert (lit_true a l = false) as Hl by (unfold lit_true; by rewrite E).
    destruct (x =? 0) eqn:Ez.
    + apply IH in H as [Hacc Hall]. split.
      { intros lit Hin. apply Hacc, elem_of_app. by left. }
      intros lit [->|Hin]%elem_of_cons; [|by apply Hall].
      split; [done|]. split; [by eexists|]. intros _.
      apply Hacc, elem_of_app. right. by apply list_elem_of_singleton.
    + apply IH in H as [Hacc Hall]. split; [done|].
      intros lit [->|Hin]%elem_of_cons; [|by apply Hall].
      split; [done|]. split; [by eexists|].
      unfold is_unassigned. by rewrite E, Ez.
Qed.

Lemma lit_true_agree (a m : list Z) (lit val : Z) :
  subscript a (Z.abs lit) = Some val → subscript m (Z.abs lit) = Some val →
  lit_true m lit = lit_true a lit.
Proof. intros Ha Hm. unfold lit_true. by rewrite Ha, Hm. Qed.

(** In a clause that a vector [m] extending [a] makes true and that [a] does
    not satisfy, a literal true in [m] is among the unassigned ones. *)
Lemma scan_model_literal (a m : list Z) (clause u : list Z) :
  extends a m → clause_true m clause = true →
  scan a clause [] = Ok (false, u) →
  ∃ lit, lit ∈ u ∧ lit_true m lit = true.
Proof.
  intros Hext (lit & Hin%list_elem_of_In & Ht)%existsb_exists
         [_ Hall]%scan_false_all.
  destruct (Hall lit Hin) as (Hf & [val Hv] & Hu).
  exists lit. split; [|done]. apply Hu. unfold is_unassigned. rewrite Hv.
  apply Z.eqb_eq. destruct (decide (val = 0)) as [|Hne]; [done|].
  pose proof (extends_subscript _ _ _ _ Hext Hv Hne) as Hm.
  rewrite (lit_true_agree a m lit val Hv Hm) in Ht. congruence.
Qed.

Lemma extends_store_model (a m : list Z) (lit : Z) (a1 : list Z) :
  extends a m → lit_true m lit = true →
  store a (Z.abs lit) (if 0 <? lit then 1 else -1) = Some a1 →
  extends a1 m.
Proof.
  intros [Hl Hext] Ht Hs. split; [by rewrite (store_length _ _ _ _ Hs)|].
  intros i val. rewrite (lookup_store _ _ _ _ _ Hs).
  case_decide as Hi; [|by apply Hext].
  intros [= <-] _. unfold lit_true in Ht. rewrite <- Hi in Ht.
  rewrite subscript_nat in Ht. destruct (m !! i) as [v|]; [|done].
  f_equal. destruct (0 <? lit) eqn:Hp; [|apply Z.ltb_ge in Hp]; lia.
Qed.

Lemma sweep_preserves_model (f : Formula) (idx : list Z) (a : list Z)
    (ch : bool) (m : list Z) (s : Sweep) (a' : list Z) :
  extends a m →
  (∀ i clause, i ∈ idx → subscript (clauses f) i = Some clause →
               clause_true m clause = true) →
  sweep f idx a ch = Ok (s, a') →
  s ≠ ReturnFalse ∧ extends a' m.
Proof.
  revert a ch. induction idx as [|i idx IH]; intros a ch Hext Hm H.
  - by injection H as <- <-.
  - assert (∀ j clause, j ∈ idx → subscript (clauses f) j = Some clause →
                        clause_true m clause = true) as Hm'.
    { intros j clause Hj. apply Hm. by right. }
    apply sweep_cons in H
      as (clause & sat & u & Hc & Hs & [[_ H]|[(-> & -> & H)|[(-> & H)|(_ & _ & H)]]]).
    + by eapply IH.
    + destruct (scan_model_literal a m clause []) as (lit & Hin & _);
        [done|by eapply Hm; [left|]|done|]. by apply elem_of_nil in Hin.
    + destruct H as (lit & a1 & -> & _ & Hst & H).
      destruct (scan_model_literal a m clause [lit]) as (lit' & Hin & Ht);
        [done|by eapply Hm; [left|]|done|].
      apply list_elem_of_singleton in Hin as ->.
      eapply IH; [|done|exact H]. by eapply extends_store_model.
    + by eapply IH.
Qed.

Lemma sweep_conflict (f : Formula) (idx : list Z) (a : list Z) (ch : bool)
    (a' : list Z) :
  sweep f idx a ch = Ok (ReturnFalse, a') →
  ∃ i clause, i ∈ idx ∧ subscript (clauses f) i = Some clause ∧
              scan a' clause [] = Ok (false, []).
Proof.
  revert a ch. induction idx as [|i idx IH]; intros a ch H; [done|].
  assert (∀ b c, sweep f idx b c = Ok (ReturnFalse, a') →
     ∃ j clause, j ∈ i :: idx ∧ subscript (clauses f) j = Some clause ∧
                 scan a' clause [] = Ok (false, [])) as Hrest.
  { intros b c (j & clause & Hj & Hc & Hs)%IH. exists j, clause.
    split; [by right|done]. }
  apply sweep_cons in H
    as (clause & sat & u & Hc & Hs & [[_ H]|[(-> & -> & H)|[(-> & H)|(_ & _ & H)]]]).
  - by eapply Hrest.
  - injection H as <-. exists i, clause. split; [left|done].
  - destruct H as (lit & a1 & _ & _ & _ & H). by eapply Hrest.
  - by eapply Hrest.
Qed.

(** X1.  Propagation reaches a fixpoint: run again on the assignment it
    left with the answer true, [propagate] answers true and changes
    nothing. *)
Theorem propagate_idempotent (f : Formula) (a a' : list Z) :
  propagate f a = Ok (true, a') → propagate f a' = Ok (true, a').
Proof.
  intros H%propagate_stable. unfold propagate. cbn [propagate_loop].
  by rewrite H.
Qed.

Lemma propagate_idempotent_witness :
  propagate scenario1 [0; 1; 0] = Ok (true, [0; 1; -1]) ∧
  propagate scenario1 [0; 1; -1] = Ok (true, [0; 1; -1]).
Proof.
  assert (propagate scenario1 [0; 1; 0] = Ok (true, [0; 1; -1])) as H
    by reflexivity.
  split; [exact H|].
  exact (propagate_idempotent scenario1 [0; 1; 0] [0; 1; -1] H).
Defined.

(** X2.  [propagate] answers false only on a real conflict: one of the
    first [numClauses] clauses has every literal assigned and false in the
    assignment that [propagate] leaves. *)
Theorem propagate_false_has_conflict_clause
    (f : Formula) (a a' : list Z) :
  propagate f a = Ok (false, a') →
  ∃ i clause,
    0 ≤ i < numClauses f ∧ subscript (clauses f) i = Some clause ∧
    ∀ lit, lit ∈ clause →
      is_assigned a' (Z.abs lit) = true ∧ lit_true a' lit = false.
Proof.
  unfold propagate. generalize (S (length a)) as fuel. intros fuel.
  revert a. induction fuel as [|fuel IH]; intros a H; [done|].
  cbn [propagate_loop] in H. bind_inv H. destruct x as [s a1].
  destruct s as [[|]|]; [by eapply IH|done|].
  injection H as <-.
  apply sweep_conflict in E as (i & clause & Hi%elem_of_seqZ & Hc & Hs).
  exists i, clause. split; [lia|]. split; [done|].
  apply scan_false_all in Hs as [_ Hall]. intros lit Hin.
  destruct (Hall lit Hin) as (Hf & [val Hv] & Hu). split; [|done].
  unfold is_assigned, is_unassigned in *. rewrite Hv in *.
  destruct (val =? 0); [|done].
  specialize (Hu eq_refl). by apply elem_of_nil in Hu.
Qed.

Lemma propagate_false_has_conflict_clause_witness :
  propagate units_formula [0; 0] = Ok (false, [0; 1]) ∧
  ∃ i clause,
    0 ≤ i < numClauses units_formula ∧
    subscript (clauses units_formula) i = Some clause ∧
    ∀ lit, lit ∈ clause →
      is_assigned [0; 1] (Z.abs lit) = true ∧ lit_true [0; 1] lit = false.
Proof.
  assert (propagate units_formula [0; 0] = Ok (false, [0; 1])) as H
    by reflexivity.
  split; [exact H|].
  exact (propagate_false_has_conflict_clause units_formula [0; 0] [0; 1] H).
Defined.

(** X3.  Unit propagation is sound with respect to models.  Let [m] keep
    every value that the current assignment holds and make each of the
    first [numClauses] clauses true.  Then whenever [propagate] returns, it
    answers true, and [m] still keeps every value of the assignment that it
    leaves: no forced value contradicts [m], and no conflict is reported. *)
Theorem propagate_preserves_models
    (f : Formula) (a m : list Z) (b : bool) (a' : list Z) :
  extends a m →
  (∀ i clause, 0 ≤ i < numClauses f →
               subscript (clauses f) i = Some clause →
               clause_true m clause = true) →
  propagate f a = Ok (b, a') →
  b = true ∧ extends a' m.
Proof.
  intros Hext Hm. unfold propagate. generalize (S (length a)) as fuel.
  intros fuel. revert a Hext.
  induction fuel as [|fuel IH]; intros a Hext H; [done|].
  cbn [propagate_loop] in H. bind_inv H. destruct x as [s a1].
  apply sweep_preserves_model with (m := m) in E as [Hs Hext1]; [|done|].
  2:{ intros i clause Hi%elem_of_seqZ. apply Hm. lia. }
  destruct s as [[|]|]; [by eapply IH| |done].
  by injection H as <- <-.
Qed.

Lemma propagate_preserves_models_witness :
  extends [0; 1; 0] [0; 1; -1] ∧
  (∀ i clause, 0 ≤ i < numClauses scenario1 →
               subscript (clauses scenario1) i = Some clause →
               clause_true [0; 1; -1] clause = true) ∧
  propagate scenario1 [0; 1; 0] = Ok (true, [0; 1; -1]) ∧
  true = true ∧ extends [0; 1; -1] [0; 1; -1].
Proof.
  assert (extends [0; 1; 0] [0; 1; -1]) as H1.
  { split; [reflexivity|]. intros [|[|[|i]]] val; simpl; intros [= <-]; done. }
  assert (∀ i clause, 0 ≤ i < numClauses scenario1 →
                      subscript (clauses scenario1) i = Some clause →
                      clause_true [0; 1; -1] clause = true) as H2.
  { intros i clause Hi. assert (i = 0 ∨ i = 1) as [->| ->] by (simpl in Hi; lia);
      intros [= <-]; reflexivity. }
  assert (propagate scenario1 [0; 1; 0] = Ok (true, [0; 1; -1])) as H3
    by reflexivity.
  split; [exact H1|]. split; [exact H2|]. split; [exact H3|].
  exact (propagate_preserves_models scenario1 [0; 1; 0] [0; 1; -1] true
           [0; 1; -1] H1 H2 H3).
Defined.

Lemma extends_store_free (a b : list Z) (i y : Z) (b' : list Z) :
  subscript a i = Some 0 → extends a b → store b i y = Some b' →
  extends a b'.
Proof.
  intros Hz [Hl Hext] Hs. split; [by rewrite (store_length _ _ _ _ Hs)|].
  intros j val Hj Hv. rewrite (lookup_store _ _ _ _ _ Hs).
  case_decide as Hji; [|by apply Hext].
  subst i. rewrite subscript_nat in Hz. congruence.
Qed.

Lemma decision_unassigned (f : Formula) (a1 : list Z) (var : Z) :
  allAssigned_loop (seqZ 1 (numVariables f)) a1 true = Ok false →
  pickUnassigned f a1 = Ok var →
  1 ≤ var ≤ numVariables f ∧ subscript a1 (Z.abs var) = Some 0.
Proof.
  intros Hall Hpick.
  destruct (pick_after_check _ _ Hall) as (var' & Hp' & Hin & Hz).
  unfold pickUnassigned in Hpick. rewrite Hp' in Hpick.
  injection Hpick as ->. apply elem_of_seqZ in Hin.
  apply is_unassigned_Some in Hz.
  split; [lia|]. by replace (Z.abs var) with var by lia.
Qed.

Lemma search_extends (f : Formula) (a : list Z) (b : bool) (a' : list Z) :
  search f a b a' → extends a a'.
Proof.
  induction 1 as [a a' Hp|a a' Hp Hall
                 |a a1 var a2 a' Hp Hall Hpick Hs1 _ IH1
                 |a a1 var a2 a3 a4 a' Hp Hall Hpick Hs1 _ IH1 Hs2 _ IH2
                 |a a1 var a2 a3 a4 a5 a' Hp Hall Hpick Hs1 _ IH1 Hs2 _ IH2 Hs3];
    apply propagate_extends in Hp; try done;
    destruct (decision_unassigned _ _ _ Hall Hpick) as [_ Hz];
    pose proof (extends_store _ _ _ _ Hz Hs1) as H12;
    apply (extends_trans _ a1); try done.
  - by apply (extends_trans _ a2).
  - apply (extends_trans _ a4); [|done].
    eapply extends_store_free; [done| |done]. by apply (extends_trans _ a2).
  - eapply extends_store_free; [done| |done].
    apply (extends_trans _ a4); [|done].
    eapply extends_store_free; [done| |done]. by apply (extends_trans _ a2).
Qed.

(** X4.  Whatever its verdict, a call of [DPLL] leaves every entry that held
    a value when the call was entered with that same value: the values set
    by its callers are never changed, only entries that were 0 are. *)
Theorem DPLL_keeps_entry_values
    (fuel : nat) (f : Formula) (a : list Z) (b : bool) (a' : list Z) :
  DPLL fuel f a = Ok (b, a') →
  length a' = length a ∧
  ∀ i val, subscript a i = Some val → val ≠ 0 → subscript a' i = Some val.
Proof.
  intros Hext%DPLL_search%search_extends. split; [by destruct Hext|].
  intros i val. by apply extends_subscript.
Qed.

Lemma DPLL_keeps_entry_values_witness :
  DPLL 3 stale_formula [0; 1; 0] = Ok (false, [0; 1; 1]) ∧
  length [0; 1; 1] = length [0; 1; 0] ∧
  ∀ i val, subscript [0; 1; 0] i = Some val → val ≠ 0 →
           subscript [0; 1; 1] i = Some val.
Proof.
  assert (DPLL 3 stale_formula [0; 1; 0] = Ok (false, [0; 1; 1])) as H
    by reflexivity.
  split; [exact H|].
  exact (DPLL_keeps_entry_values 3 stale_formula [0; 1; 0] false [0; 1; 1] H).
Defined.

Lemma pick_all_assigned (idx : list Z) (a : list Z) :
  allAssigned_loop idx a true = Ok true → pickUnassigned_loop idx a = Ok (-1).
Proof.
  induction idx as [|i idx IH]; intros H; [done|].
  cbn [allAssigned_loop] in H. bind_inv H.
  cbn [pickUnassigned_loop]. rewrite E. cbn.
  destruct (x =? 0); cbn [negb] in H.
  - by rewrite allAssigned_loop_false in H.
  - by apply IH.
Qed.

(** X5.  The decision agrees with the completeness check that precedes it:
    when the check finds every variable assigned, [pickUnassigned] returns
    its sentinel -1; when the check fails, [pickUnassigned] returns a
    variable of [1..numVariables] that holds 0, so the write to
    [assigns[abs(var)]] in [DPLL] never uses the sentinel. *)
Theorem pickUnassigned_agrees_with_check
    (f : Formula) (a : list Z) (allAssigned : bool) :
  allAssigned_loop (seqZ 1 (numVariables f)) a true = Ok allAssigned →
  if allAssigned then pickUnassigned f a = Ok (-1)
  else ∃ var, pickUnassigned f a = Ok var ∧ Z.abs var = var ∧
              1 ≤ var ≤ numVariables f ∧ subscript a var = Some 0.
Proof.
  intros H. destruct allAssigned.
  - by apply pick_all_assigned.
  - destruct (pick_after_check _ _ H) as (var & Hp & Hin & Hz).
    exists var. apply elem_of_seqZ in Hin. apply is_unassigned_Some in Hz.
    split; [done|]. split; [lia|]. split; [lia|done].
Qed.

Lemma pickUnassigned_agrees_with_check_witness :
  allAssigned_loop (seqZ 1 (numVariables scenario1)) [0; 1; 0] true
  = Ok false ∧
  ∃ var, pickUnassigned scenario1 [0; 1; 0] = Ok var ∧ Z.abs var = var ∧
         1 ≤ var ≤ numVariables scenario1 ∧
         subscript [0; 1; 0] var = Some 0.
Proof.
  assert (allAssigned_loop (seqZ 1 (numVariables scenario1)) [0; 1; 0] true
          = Ok false) as H by reflexivity.
  split; [exact H|].
  exact (pickUnassigned_agrees_with_check scenario1 [0; 1; 0] false H).
Defined.

(** ** Clauses beyond [numClauses] *)

Lemma sweep_agree (f f' : Formula) (idx : list Z) (a : list Z) (ch : bool) :
  (∀ i, i ∈ idx → subscript (clauses f) i = subscript (clauses f') i) →
  sweep f idx a ch = sweep f' idx a ch.
Proof.
  revert a ch. induction idx as [|i idx IH]; intros a ch H; [done|].
  assert (∀ b c, sweep f idx b c = sweep f' idx b c) as Hrest.
  { intros b c. apply IH. intros j Hj. apply H. by right. }
  cbn [sweep]. rewrite (H i) by left.
  apply bind_ext. intros clause. apply bind_ext. intros [sat u].
  destruct sat; [done|]. destruct u as [|lit [|lit2 u]]; [done| |done].
  apply bind_ext. intros a1. apply Hrest.
Qed.

Lemma propagate_agree (f f' : Formula) (a : list Z) :
  numClauses f = numClauses f' →
  take (Z.to_nat (numClauses f)) (clauses f)
  = take (Z.to_nat (numClauses f)) (clauses f') →
  propagate f a = propagate f' a.
Proof.
  intros Hnc Htake. unfold propagate. generalize (S (length a)) as fuel.
  intros fuel. revert a. induction fuel as [|fuel IH]; intros a; [done|].
  cbn [propagate_loop]. rewrite <- Hnc.
  rewrite (sweep_agree f f').
  - apply bind_ext. intros [[[|]|] a1]; [apply IH|done|done].
  - intros i Hi%elem_of_seqZ. unfold subscript. case_decide; [|done].
    rewrite <- (lookup_take_lt (clauses f) (Z.to_nat (numClauses f))) by lia.
    rewrite <- (lookup_take_lt (clauses f') (Z.to_nat (numClauses f))) by lia.
    by rewrite Htake.
Qed.

Lemma DPLL_agree (fuel : nat) (f f' : Formula) (a : list Z) :
  numVariables f = numVariables f' →
  numClauses f = numClauses f' →
  take (Z.to_nat (numClauses f)) (clauses f)
  = take (Z.to_nat (numClauses f)) (clauses f') →
  DPLL fuel f a = DPLL fuel f' a.
Proof.
  intros Hnv Hnc Htake. revert a.
  induction fuel as [|fuel IH]; intros a; [done|].
  cbn [DPLL]. rewrite (propagate_agree f f' a Hnc Htake).
  unfold pickUnassigned. rewrite <- Hnv.
  apply bind_ext. intros [result a1]. destruct result; cbn [negb]; [|done].
  apply bind_ext. intros [|]; [done|].
  apply bind_ext. intros var. apply bind_ext. intros a2. rewrite IH.
  apply bind_ext. intros [[|] a3]; [done|].
  apply bind_ext. intros a4. by rewrite IH.
Qed.

Lemma solve_agree (f f' : Formula) (a : list Z) :
  numVariables f = numVariables f' →
  numClauses f = numClauses f' →
  take (Z.to_nat (numClauses f)) (clauses f)
  = take (Z.to_nat (numClauses f)) (clauses f') →
  solve f a = solve f' a.
Proof.
  intros Hnv Hnc Htake. unfold solve. rewrite <- Hnv.
  apply bind_ext. intros a0. by apply DPLL_agree.
Qed.

(** X6.  The solver never looks at a clause stored beyond the first
    [numClauses]: two formulas with the same counts and the same first
    [numClauses] clauses get the same result from [solve], on every
    assignment vector. *)
Theorem solve_reads_declared_clauses_only (f f' : Formula) (a : list Z) :
  numVariables f = numVariables f' →
  numClauses f = numClauses f' →
  take (Z.to_nat (numClauses f)) (clauses f)
  = take (Z.to_nat (numClauses f)) (clauses f') →
  solve f a = solve f' a.
Proof. apply solve_agree. Qed.

Lemma solve_reads_declared_clauses_only_witness :
  numVariables (mkFormula 1 1 [[1]; [-1]]) = numVariables (mkFormula 1 1 [[1]])
  ∧ numClauses (mkFormula 1 1 [[1]; [-1]]) = numClauses (mkFormula 1 1 [[1]])
  ∧ take (Z.to_nat (numClauses (mkFormula 1 1 [[1]; [-1]])))
         (clauses (mkFormula 1 1 [[1]; [-1]]))
    = take (Z.to_nat (numClauses (mkFormula 1 1 [[1]; [-1]])))
           (clauses (mkFormula 1 1 [[1]]))
  ∧ solve (mkFormula 1 1 [[1]; [-1]]) [0; 0]
    = solve (mkFormula 1 1 [[1]]) [0; 0].
Proof.
  split; [reflexivity|]. split; [reflexivity|]. split; [reflexivity|].
  exact (solve_reads_declared_clauses_only
           (mkFormula 1 1 [[1]; [-1]]) (mkFormula 1 1 [[1]]) [0; 0]
           eq_refl eq_refl eq_refl).
Defined.

(** ** A formula that declares no clause *)

Lemma propagate_no_clauses (f : Formula) (a : list Z) :
  numClauses f ≤ 0 → propagate f a = Ok (true, a).
Proof.
  intros Hnc. unfold propagate. cbn [propagate_loop].
  by rewrite seqZ_nil.
Qed.

Lemma search_no_clauses (f : Formula) (a : list Z) (b : bool) (a' : list Z) :
  numClauses f ≤ 0 → search f a b a' →
  b = true ∧
  a' !! 0%nat = a !! 0%nat ∧
  ((∀ (i : nat) val, a !! i = Some val → val = 0 ∨ val = 1) →
   ∀ (i : nat) val, a' !! i = Some val → val = 0 ∨ val = 1).
Proof.
  intros Hnc.
  induction 1 as [a a' Hp|a a' Hp Hall
                 |a a1 var a2 a' Hp Hall Hpick Hs1 _ IH1
                 |a a1 var a2 a3 a4 a' Hp Hall Hpick Hs1 _ IH1 Hs2 _ IH2
                 |a a1 var a2 a3 a4 a5 a' Hp Hall Hpick Hs1 _ IH1 Hs2 _ IH2 Hs3];
    rewrite (propagate_no_clauses f a Hnc) in Hp.
  - done.
  - by injection Hp as <-.
  - injection Hp as <-. destruct IH1 as (_ & H0 & HP).
    destruct (decision_unassigned _ _ _ Hall Hpick) as [Hv _].
    split; [done|]. split.
    + rewrite H0, (lookup_store _ _ _ _ _ Hs1). case_decide; [lia|done].
    + intros Ha. apply HP. intros i val.
      rewrite (lookup_store _ _ _ _ _ Hs1).
      case_decide; [intros [= <-]; by right|apply Ha].
  - by destruct IH1 as ([=] & _).
  - by destruct IH1 as ([=] & _).
Qed.

(** X7.  A formula that declares no clause is satisfiable, and the solver
    says so by setting every variable to true: for [numVariables] within
    [0..INT_MAX-1] and [numClauses <= 0], a fresh solver returns SAT with
    entry 0 left at 0 and every variable at 1, whatever clauses are
    stored. *)
Theorem no_clauses_all_true (f : Formula) :
  0 ≤ numVariables f < INT_MAX →
  numClauses f ≤ 0 →
  run f = Ok (true, 0 :: replicate (Z.to_nat (numVariables f)) 1).
Proof.
  intros Hnv Hnc.
  set (f0 := mkFormula (numVariables f) (numClauses f) []).
  unfold run, new. rewrite decide_False by lia. rewrite decide_True by lia.
  cbn [mbind Res_bind].
  set (fresh := replicate (Z.to_nat (numVariables f + 1)) 0).
  assert (length fresh = Z.to_nat (numVariables f + 1)) as Hlf
    by apply length_replicate.
  rewrite (solve_agree f f0 fresh eq_refl eq_refl).
  2:{ replace (Z.to_nat (numClauses f)) with 0%nat by lia. done. }
  destruct (solve_Ok f0 fresh) as (b & a' & Hs).
  { split; [cbn; lia|]. split; [cbn; lia|].
    intros clause lit Hc. by apply elem_of_nil in Hc. }
  rewrite Hs. apply solve_search in Hs as (a0 & Hr & Hsearch).
  apply reset_loop_spec in Hr as [Hl0 H0].
  pose proof (search_length _ _ _ _ Hsearch) as Hl.
  destruct (search_sat _ _ _ _ Hsearch) as [_ Hall].
  { by destruct (search_no_clauses f0 _ _ _ Hnc Hsearch) as [-> _]. }
  destruct (search_no_clauses f0 _ _ _ Hnc Hsearch) as (-> & Hz & HP).
  pose proof (allAssigned_loop_true _ _ Hall) as Hass. cbn in Hass.
  assert (∀ (i : nat) val, a' !! i = Some val → val = 0 ∨ val = 1) as HP'.
  { apply HP. intros i val. rewrite H0. case_decide; [intros [= <-]; by left|].
    intros [-> _]%lookup_replicate_1. by left. }
  do 2 f_equal. apply list_eq. intros i. destruct i as [|i].
  - rewrite Hz, H0. rewrite decide_False.
    + rewrite lookup_cons. apply lookup_replicate_2. lia.
    + intros Hin%elem_of_seqZ. lia.
  - rewrite (lookup_cons _ _ (S i)).
    destruct (decide (S i < length a')%nat) as [Hlt|Hge].
    + rewrite lookup_replicate_2 by lia.
      specialize (Hass (Z.of_nat (S i))). unfold is_assigned in Hass.
      rewrite subscript_nat in Hass.
      destruct (a' !! S i) as [val|] eqn:Ev.
      * destruct (HP' _ _ Ev) as [->| ->]; [|done].
        discriminate Hass. apply elem_of_seqZ. lia.
      * apply lookup_ge_None in Ev. lia.
    + rewrite lookup_ge_None_2 by lia. symmetry.
      apply lookup_replicate_None. lia.
Qed.

Lemma no_clauses_all_true_witness :
  0 ≤ numVariables (mkFormula 2 0 [[-1]; [-2]]) < INT_MAX ∧
  numClauses (mkFormula 2 0 [[-1]; [-2]]) ≤ 0 ∧
  run (mkFormula 2 0 [[-1]; [-2]])
  = Ok (true, 0 :: replicate
                     (Z.to_nat (numVariables (mkFormula 2 0 [[-1]; [-2]]))) 1).
Proof.
  assert (0 ≤ numVariables (mkFormula 2 0 [[-1]; [-2]]) < INT_MAX) as H1
    by (unfold INT_MAX; simpl; lia).
  assert (numClauses (mkFormula 2 0 [[-1]; [-2]]) ≤ 0) as H2 by (simpl; lia).
  split; [exact H1|]. split; [exact H2|].
  exact (no_clauses_all_true (mkFormula 2 0 [[-1]; [-2]]) H1 H2).
Defined.

(** * Further properties of the parser *)

Lemma string_app_cons (c : ascii) (s t : string) :
  String c s +:+ t = String c (s +:+ t).
Proof. done. Qed.

Lemma string_app_nil_l (s : string) : "" +:+ s = s.
Proof. done. Qed.

Lemma string_app_nil_r (s : string) : s +:+ "" = s.
Proof.
  induction s as [|c s IH]; [done|]. by rewrite string_app_cons, IH.
Qed.

Lemma string_app_assoc (s t u : string) : (s +:+ t) +:+ u = s +:+ t +:+ u.
Proof.
  induction s as [|c s IH]; [done|]. by rewrite !string_app_cons, IH.
Qed.

Lemma getlines_line (l rest acc : string) (started : bool) :
  one_line l = true →
  CNFParser.getlines (l +:+ newline +:+ rest) acc started
  = (acc +:+ l) :: CNFParser.getlines rest "" false.
Proof.
  revert acc started. induction l as [|c l IH]; intros acc started H.
  - by rewrite string_app_nil_r.
  - cbn [one_line] in H. apply andb_true_iff in H as [Hc Hl].
    rewrite string_app_cons. cbn [CNFParser.getlines].
    destruct (Ascii.eqb c "010"); [done|].
    rewrite (IH _ _ Hl). by rewrite string_app_assoc.
Qed.

Lemma getlines_app (s t acc : string) (started : bool) :
  CNFParser.getlines (s +:+ newline +:+ t) acc started
  = CNFParser.getlines (s +:+ newline) acc started
    ++ CNFParser.getlines t "" false.
Proof.
  revert acc started. induction s as [|c s IH]; intros acc started; [done|].
  rewrite !string_app_cons. cbn [CNFParser.getlines].
  destruct (Ascii.eqb c "010"); [|apply IH].
  by rewrite IH.
Qed.

(** Inserting one line after a prefix that is empty or ends a line. *)
Lemma getlines_insert (pre line post : string) :
  one_line line = true →
  pre = "" ∨ (∃ pre', pre = pre' +:+ newline) →
  CNFParser.getlines (pre +:+ line +:+ newline +:+ post) "" false
  = CNFParser.getlines pre "" false
    ++ line :: CNFParser.getlines post "" false ∧
  CNFParser.getlines (pre +:+ post) "" false
  = CNFParser.getlines pre "" false ++ CNFParser.getlines post "" false.
Proof.
  intros Hl [->|[pre' ->]].
  - rewrite !string_app_nil_l. split; [|done].
    by rewrite (getlines_line line post "" false Hl).
  - rewrite !string_app_assoc. rewrite !(getlines_app pre').
    by rewrite (getlines_line line post "" false Hl).
Qed.

Lemma fold_parse_line_insert (before after : list string) (line : string)
    (st : CNFParser.Locals) :
  CNFParser.parse_line (fold_left CNFParser.parse_line before st) line
  = fold_left CNFParser.parse_line before st →
  fold_left CNFParser.parse_line (before ++ line :: after) st
  = fold_left CNFParser.parse_line (before ++ after) st.
Proof. intros H. rewrite !fold_left_app. cbn [fold_left]. by rewrite H. Qed.

(** X8.  Comment lines and blank lines are skipped wherever they stand: a
    line that starts with [c], or an empty line, inserted at the start of
    the file or after any complete line, does not change what [parse]
    returns. *)
Theorem parse_ignores_skippable_line
    (nv0 nc0 : Z) (pre line post : string) :
  CNFParser.isSkippable line = true →
  one_line line = true →
  pre = "" ∨ (∃ pre', pre = pre' +:+ newline) →
  CNFParser.parse nv0 nc0 (Some (pre +:+ line +:+ newline +:+ post))
  = CNFParser.parse nv0 nc0 (Some (pre +:+ post)).
Proof.
  intros Hskip Hl Hpre. unfold CNFParser.parse.
  destruct (getlines_insert pre line post Hl Hpre) as [-> ->].
  rewrite fold_parse_line_insert; [done|].
  unfold CNFParser.parse_line. by rewrite Hskip.
Qed.

Lemma parse_ignores_skippable_line_witness :
  CNFParser.isSkippable "c a comment" = true ∧
  one_line "c a comment" = true ∧
  (header_file = "" ∨ (∃ pre', header_file = pre' +:+ newline)) ∧
  CNFParser.parse 0 0
    (Some (header_file +:+ "c a comment" +:+ newline +:+ "1 -2 0"))
  = CNFParser.parse 0 0 (Some (header_file +:+ "1 -2 0")).
Proof.
  assert (header_file = "" ∨ (∃ pre', header_file = pre' +:+ newline)) as H
    by (right; exists "p cnf 2 3"; reflexivity).
  split; [reflexivity|]. split; [reflexivity|]. split; [exact H|].
  exact (parse_ignores_skippable_line 0 0 header_file "c a comment" "1 -2 0"
           eq_refl eq_refl H).
Defined.

Lemma prefix_p_blank (line : string) :
  String.prefix "p " line = true →
  ∃ rest, line = String "p" (String " " rest).
Proof.
  destruct line as [|c1 [|c2 rest]]; cbn [String.prefix]; try done.
  - by destruct (ascii_dec "p" c1).
  - destruct (ascii_dec "p" c1) as [<-|]; [|done].
    destruct (ascii_dec " " c2) as [<-|]; [|done]. by exists rest.
Qed.

(** A line that starts with [p ] holds no literal for [parseClause]. *)
Lemma parseClause_header_line (line : string) :
  String.prefix "p " line = true → CNFParser.parseClause line = [].
Proof. intros [rest ->]%prefix_p_blank. reflexivity. Qed.

Lemma parse_line_second_header (st : CNFParser.Locals) (line : string) :
  CNFParser.headerFound st = true → String.prefix "p " line = true →
  CNFParser.parse_line st line = st.
Proof.
  intros Hf Hp. unfold CNFParser.parse_line.
  destruct (CNFParser.isSkippable line); [done|].
  rewrite Hf. cbn [negb andb]. by rewrite (parseClause_header_line line Hp).
Qed.

Lemma parse_line_headerFound (st : CNFParser.Locals) (line : string) :
  CNFParser.headerFound st = true ∨ String.prefix "p " line = true →
  CNFParser.headerFound (CNFParser.parse_line st line) = true.
Proof.
  intros H. unfold CNFParser.parse_line.
  destruct (CNFParser.isSkippable line) eqn:Hs.
  { destruct H as [?|Hp]; [done|].
    apply prefix_p_blank in Hp as [rest ->]. done. }
  destruct (CNFParser.headerFound st) eqn:Hf; cbn [negb andb].
  - by destruct (CNFParser.parseClause line).
  - destruct H as [?| ->]; [done|].
    by destruct (CNFParser.parseHeader _ _ _) as [[? ?] ?].
Qed.

Lemma fold_parse_line_headerFound (lines : list string)
    (st : CNFParser.Locals) :
  CNFParser.headerFound st = true ∨
  (∃ l, l ∈ lines ∧ String.prefix "p " l = true) →
  CNFParser.headerFound (fold_left CNFParser.parse_line lines st) = true.
Proof.
  revert st. induction lines as [|line lines IH]; intros st H.
  - destruct H as [?|(l & Hl & _)]; [done|by apply elem_of_nil in Hl].
  - cbn [fold_left]. apply IH.
    destruct H as [Hf|(l & [->|Hl]%elem_of_cons & Hp)].
    + left. apply parse_line_headerFound. by left.
    + left. apply parse_line_headerFound. by right.
    + right. by exists l.
Qed.

(** X9.  Only the first line that starts with [p ] is read as the header:
    once such a line has been seen, a later line that starts with [p ] is
    dropped altogether, changing neither the counts nor the clauses nor the
    output. *)
Theorem parse_ignores_later_header
    (nv0 nc0 : Z) (pre line post : string) :
  (∃ l, l ∈ CNFParser.getlines (pre +:+ newline) "" false ∧
        String.prefix "p " l = true) →
  String.prefix "p " line = true →
  one_line line = true →
  CNFParser.parse nv0 nc0
    (Some ((pre +:+ newline) +:+ line +:+ newline +:+ post))
  = CNFParser.parse nv0 nc0 (Some ((pre +:+ newline) +:+ post)).
Proof.
  intros Hhdr Hp Hl. unfold CNFParser.parse.
  destruct (getlines_insert (pre +:+ newline) line post Hl) as [-> ->];
    [right; by exists pre|].
  rewrite fold_parse_line_insert; [done|].
  apply parse_line_second_header; [|done].
  apply fold_parse_line_headerFound. by right.
Qed.

Lemma parse_ignores_later_header_witness :
  (∃ l, l ∈ CNFParser.getlines ("p cnf 2 3" +:+ newline) "" false ∧
        String.prefix "p " l = true) ∧
  String.prefix "p " "p cnf 9 9" = true ∧
  one_line "p cnf 9 9" = true ∧
  CNFParser.parse 0 0
    (Some (("p cnf 2 3" +:+ newline) +:+ "p cnf 9 9" +:+ newline +:+ "1 0"))
  = CNFParser.parse 0 0 (Some (("p cnf 2 3" +:+ newline) +:+ "1 0")).
Proof.
  assert (∃ l, l ∈ CNFParser.getlines ("p cnf 2 3" +:+ newline) "" false ∧
               String.prefix "p " l = true) as H.
  { exists "p cnf 2 3". split; [|reflexivity]. vm_compute. left. }
  split; [exact H|]. split; [reflexivity|]. split; [reflexivity|].
  exact (parse_ignores_later_header 0 0 "p cnf 2 3" "p cnf 9 9" "1 0"
           H eq_refl eq_refl).
Defined.

Lemma parse_line_no_header (st : CNFParser.Locals) (line : string) :
  String.prefix "p " line = false →
  numVariables (CNFParser.formula (CNFParser.parse_line st line))
  = numVariables (CNFParser.formula st) ∧
  numClauses (CNFParser.formula (CNFParser.parse_line st line))
  = numClauses (CNFParser.formula st) ∧
  CNFParser.cout (CNFParser.parse_line st line) = CNFParser.cout st.
Proof.
  intros Hp. unfold CNFParser.parse_line.
  destruct (CNFParser.isSkippable line); [done|].
  rewrite Hp, andb_false_r.
  by destruct (CNFParser.parseClause line).
Qed.

Lemma fold_parse_line_no_header (lines : list string)
    (st : CNFParser.Locals) :
  (∀ l, l ∈ lines → String.prefix "p " l = false) →
  numVariables (CNFParser.formula (fold_left CNFParser.parse_line lines st))
  = numVariables (CNFParser.formula st) ∧
  numClauses (CNFParser.formula (fold_left CNFParser.parse_line lines st))
  = numClauses (CNFParser.formula st) ∧
  CNFParser.cout (fold_left CNFParser.parse_line lines st)
  = CNFParser.cout st.
Proof.
  revert st. induction lines as [|line lines IH]; intros st H; [done|].
  cbn [fold_left].
  destruct (parse_line_no_header st line) as (<- & <- & <-).
  { apply H. left. }
  apply IH. intros l Hl. apply H. by right.
Qed.

(** X10.  A file in which no line starts with [p ] has no header for
    [parse]: the two counts of the formula it returns are the indeterminate
    values the fields started with, and nothing is printed. *)
Theorem parse_without_header (nv0 nc0 : Z) (content : string) :
  (∀ l, l ∈ CNFParser.getlines content "" false →
        String.prefix "p " l = false) →
  numVariables (fst (CNFParser.parse nv0 nc0 (Some content))) = nv0 ∧
  numClauses (fst (CNFParser.parse nv0 nc0 (Some content))) = nc0 ∧
  snd (CNFParser.parse nv0 nc0 (Some content)) = [].
Proof.
  intros H. unfold CNFParser.parse. cbn [fst snd].
  exact (fold_parse_line_no_header _
           (CNFParser.mkLocals (mkFormula nv0 nc0 []) false []) H).
Qed.

Lemma parse_without_header_witness :
  (∀ l, l ∈ CNFParser.getlines ("c only" +:+ newline +:+ "1 2 0") "" false →
        String.prefix "p " l = false) ∧
  numVariables
    (fst (CNFParser.parse 7 8 (Some ("c only" +:+ newline +:+ "1 2 0")))) = 7 ∧
  numClauses
    (fst (CNFParser.parse 7 8 (Some ("c only" +:+ newline +:+ "1 2 0")))) = 8 ∧
  snd (CNFParser.parse 7 8 (Some ("c only" +:+ newline +:+ "1 2 0"))) = [].
Proof.
  assert (∀ l,
    l ∈ CNFParser.getlines ("c only" +:+ newline +:+ "1 2 0") "" false →
    String.prefix "p " l = false) as H.
  { intros l Hl. vm_compute in Hl.
    apply elem_of_cons in Hl as [->|Hl]; [reflexivity|].
    apply list_elem_of_singleton in Hl as ->. reflexivity. }
  split; [exact H|].
  exact (parse_without_header 7 8 ("c only" +:+ newline +:+ "1 2 0") H).
Defined.

Lemma parseHeader_output (line : string) (a b : Z) :
  snd (CNFParser.parseHeader line a b) = [] ∨
  snd (CNFParser.parseHeader line a b) = ["Invalid header"%string].
Proof.
  unfold CNFParser.parseHeader.
  repeat (destruct (CNFParser.get_string _ _) as [? ?]).
  repeat (destruct (CNFParser.get_int _ _) as [? ?]).
  destruct (_ || _); cbn; auto.
Qed.

Lemma parse_line_cout (st : CNFParser.Locals) (line : string) :
  (CNFParser.headerFound st = false → CNFParser.cout st = []) →
  CNFParser.cout st = [] ∨ CNFParser.cout st = ["Invalid header"%string] →
  (CNFParser.headerFound (CNFParser.parse_line st line) = false →
   CNFParser.cout (CNFParser.parse_line st line) = []) ∧
  (CNFParser.cout (CNFParser.parse_line st line) = [] ∨
   CNFParser.cout (CNFParser.parse_line st line)
   = ["Invalid header"%string]).
Proof.
  intros H1 H2. unfold CNFParser.parse_line.
  destruct (CNFParser.isSkippable line); [split; [exact H1|exact H2]|].
  destruct (CNFParser.headerFound st) eqn:Hf; cbn [negb andb].
  { destruct (CNFParser.parseClause line); cbn;
      (split; [intros Hx; first [congruence|exact (H1 eq_refl)]|exact H2]). }
  destruct (String.prefix "p " line).
  - pose proof (parseHeader_output line (numClauses (CNFParser.formula st))
                  (numVariables (CNFParser.formula st))) as Ho.
    destruct (CNFParser.parseHeader _ _ _) as [[? ?] out]. cbn in *.
    rewrite (H1 eq_refl). split; [done|]. exact Ho.
  - destruct (CNFParser.parseClause line); cbn;
      (split; [intros Hx; first [congruence|exact (H1 eq_refl)]|exact H2]).
Qed.

(** X11.  [parse] prints at most once: whatever the file, its output is
    empty or the single message [Invalid header]. *)
Theorem parse_prints_at_most_once (nv0 nc0 : Z) (file : option string) :
  snd (CNFParser.parse nv0 nc0 file) = [] ∨
  snd (CNFParser.parse nv0 nc0 file) = ["Invalid header"%string].
Proof.
  unfold CNFParser.parse. cbn [snd].
  generalize (match file with
              | Some content => CNFParser.getlines content "" false
              | None => []
              end) as lines.
  intros lines.
  set (st0 := CNFParser.mkLocals (mkFormula nv0 nc0 []) false []).
  assert ((CNFParser.headerFound st0 = false → CNFParser.cout st0 = []) ∧
          (CNFParser.cout st0 = [] ∨
           CNFParser.cout st0 = ["Invalid header"%string])) as H0
    by (split; [done|by left]).
  revert H0. generalize st0 as st. clear st0. intros st. revert st.
  induction lines as [|line lines IH]; intros st [H1 H2]; [done|].
  cbn [fold_left]. by apply IH, parse_line_cout.
Qed.

(** An extraction of an [int] that succeeds delivers a value of [int]. *)
Lemma get_int_range (st : CNFParser.istream) (old : Z)
    (st' : CNFParser.istream) (v : Z) :
  CNFParser.get_int st old = (st', v) → CNFParser.failbit st' = false →
  INT_MIN ≤ v ≤ INT_MAX.
Proof.
  unfold CNFParser.get_int. intros H Hok.
  destruct (CNFParser.failbit st) eqn:Ef; [injection H as <- _; congruence|].
  destruct (CNFParser.skipws (CNFParser.unread st)) as [|c rest].
  { injection H as <- _. done. }
  destruct (if Ascii.eqb c "-" then (true, rest)
            else if Ascii.eqb c "+" then (false, rest)
                 else (false, String c rest)) as [negative body].
  destruct (CNFParser.digits body 0 false) as [[n seen] r].
  destruct (negb seen); [injection H as <- _; done|].
  destruct (_ <? INT_MIN) eqn:E1; [injection H as <- _; done|].
  destruct (INT_MAX <? _) eqn:E2; [injection H as <- _; done|].
  injection H as _ <-. apply Z.ltb_ge in E1, E2. lia.
Qed.

Lemma parseClause_loop_Forall (P : Z → Prop) (fuel : nat)
    (st : CNFParser.istream) (p : Z) (out r : list Z) :
  (∀ v, INT_MIN ≤ v ≤ INT_MAX → v ≠ 0 → P v) →
  CNFParser.parseClause_loop fuel st p out = Some r →
  Forall P out → Forall P r.
Proof.
  intros HP. revert st p out.
  induction fuel as [|fuel IH]; intros st p out H Hout; [done|].
  cbn [CNFParser.parseClause_loop] in H.
  destruct (CNFParser.get_int st p) as [st' v] eqn:Eg.
  destruct (CNFParser.failbit st') eqn:Ef; [by injection H as <-|].
  destruct (v =? 0) eqn:Ev; [by injection H as <-|].
  apply IH in H; [done|]. apply Forall_app. split; [done|].
  apply Forall_singleton, HP; [by eapply get_int_range|by apply Z.eqb_neq].
Qed.

Lemma parseClause_literals (line : string) :
  Forall (λ lit, INT_MIN ≤ lit ≤ INT_MAX ∧ lit ≠ 0)
         (CNFParser.parseClause line).
Proof.
  unfold CNFParser.parseClause.
  destruct (CNFParser.parseClause_loop _ _ _ _) as [r|] eqn:E; cbn; [|done].
  eapply parseClause_loop_Forall; [|exact E|done]. done.
Qed.

(** X12.  Every literal that [parse] stores, whatever the file, is a
    non-zero value of [int]: the sentinel 0 is never stored as a literal. *)
Theorem parse_literals_are_nonzero_ints
    (nv0 nc0 : Z) (file : option string) (clause : list Z) (lit : Z) :
  clause ∈ clauses (fst (CNFParser.parse nv0 nc0 file)) →
  lit ∈ clause →
  INT_MIN ≤ lit ≤ INT_MAX ∧ lit ≠ 0.
Proof.
  unfold CNFParser.parse. cbn [fst].
  generalize (match file with
              | Some content => CNFParser.getlines content "" false
              | None => []
              end) as lines.
  intros lines.
  set (st0 := CNFParser.mkLocals (mkFormula nv0 nc0 []) false []).
  assert (Forall (Forall (λ l, INT_MIN ≤ l ≤ INT_MAX ∧ l ≠ 0))
                 (clauses (CNFParser.formula st0))) as H0 by constructor.
  revert H0. generalize st0 as st. clear st0. intros st. revert st.
  induction lines as [|line lines IH]; intros st H0.
  - intros Hc Hl. cbn in Hc. rewrite Forall_forall in H0.
    specialize (H0 _ Hc). rewrite Forall_forall in H0. by apply H0.
  - cbn [fold_left]. apply IH. unfold CNFParser.parse_line.
    destruct (CNFParser.isSkippable line); [done|].
    destruct (_ && _).
    + by destruct (CNFParser.parseHeader _ _ _) as [[? ?] ?].
    + pose proof (parseClause_literals line) as Hlit.
      destruct (CNFParser.parseClause line) as [|l c]; [done|].
      cbn. apply Forall_app. split; [done|]. by constructor.
Qed.

Lemma parse_literals_are_nonzero_ints_witness :
  [1; 2] ∈ clauses (fst (CNFParser.parse 0 0 (Some bad_header_file))) ∧
  2 ∈ [1; 2] ∧
  INT_MIN ≤ 2 ≤ INT_MAX ∧ 2 ≠ 0.
Proof.
  assert ([1; 2] ∈ clauses (fst (CNFParser.parse 0 0 (Some bad_header_file))))
    as H1 by (vm_compute; left).
  assert (2 ∈ [1; 2]) as H2 by (right; left).
  split; [exact H1|]. split; [exact H2|].
  exact (parse_literals_are_nonzero_ints 0 0 (Some bad_header_file)
           [1; 2] 2 H1 H2).
Defined.

(** ** Reading back what is written in decimal *)

Lemma pretty_N_char_digit (d : N) :
  (d < 10)%N →
  CNFParser.isdigit (pretty_N_char d) = true ∧
  Z.of_nat (nat_of_ascii (pretty_N_char d)) - 48 = Z.of_N d.
Proof.
  intros Hd.
  assert (d = 0 ∨ d = 1 ∨ d = 2 ∨ d = 3 ∨ d = 4 ∨ d = 5 ∨ d = 6 ∨ d = 7
          ∨ d = 8 ∨ d = 9)%N as H by lia.
  repeat (destruct H as [->|H]; [by vm_compute|]). subst d. by vm_compute.
Qed.

Lemma digits_cons_digit (c : ascii) (s : string) (acc : Z) (seen : bool) :
  CNFParser.isdigit c = true →
  CNFParser.digits (String c s) acc seen
  = CNFParser.digits s (10 * acc + (Z.of_nat (nat_of_ascii c) - 48)) true.
Proof. intros H. cbn [CNFParser.digits]. by rewrite H. Qed.

Lemma digits_ends_number (s : string) (acc : Z) (seen : bool) :
  ends_number s = true → CNFParser.digits s acc seen = (acc, seen, s).
Proof.
  destruct s as [|c s]; [done|]. cbn [ends_number CNFParser.digits].
  by intros ->%negb_true_iff.
Qed.

(** The digits that [pretty_N_go] writes in front of [s] are read back as
    the number they denote. *)
Lemma digits_pretty_N_go (x : N) :
  (0 < x)%N →
  ∃ k, ∀ s acc seen,
    CNFParser.digits (pretty_N_go x s) acc seen
    = CNFParser.digits s (acc * k + Z.of_N x) true.
Proof.
  induction (N.lt_wf_0 x) as [x _ IH]. intros Hx.
  destruct (pretty_N_char_digit (x `mod` 10)%N) as [Hd Hv].
  { by apply N.mod_lt. }
  assert (Z.of_N x = 10 * Z.of_N (x `div` 10) + Z.of_N (x `mod` 10)) as Hdm.
  { rewrite (N.div_mod x 10) at 1 by done. lia. }
  destruct (decide (x `div` 10 = 0)%N) as [Hz|Hnz].
  - exists 10. intros s acc seen.
    rewrite pretty_N_go_step, Hz, pretty_N_go_0 by done.
    rewrite digits_cons_digit by done. rewrite Hv. f_equal.
    rewrite Hdm, Hz. lia.
  - destruct (IH (x `div` 10)%N) as [k Hk];
      [by apply N.div_lt|by apply N.neq_0_lt_0|].
    exists (10 * k). intros s acc seen.
    rewrite pretty_N_go_step by done. rewrite Hk.
    rewrite digits_cons_digit by done. rewrite Hv. f_equal.
    rewrite Hdm. lia.
Qed.

Lemma pretty_N_go_app (x : N) (s t : string) :
  pretty_N_go x s +:+ t = pretty_N_go x (s +:+ t).
Proof.
  revert s. induction (N.lt_wf_0 x) as [x _ IH]. intros s.
  destruct (decide (x = 0)%N) as [->|Hx]; [by rewrite !pretty_N_go_0|].
  assert (0 < x)%N as Hpos by (by apply N.neq_0_lt_0).
  rewrite (pretty_N_go_step x s), (pretty_N_go_step x (s +:+ t)) by done.
  rewrite IH by (by apply N.div_lt). by rewrite string_app_cons.
Qed.

Lemma pretty_N_go_head (x : N) (s : string) :
  (0 < x)%N →
  ∃ c r, pretty_N_go x s = String c r ∧ CNFParser.isdigit c = true.
Proof.
  revert s. induction (N.lt_wf_0 x) as [x _ IH]. intros s Hx.
  destruct (pretty_N_char_digit (x `mod` 10)%N) as [Hd _].
  { by apply N.mod_lt. }
  rewrite pretty_N_go_step by done.
  destruct (decide (x `div` 10 = 0)%N) as [Hz|Hnz].
  - rewrite Hz, pretty_N_go_0. by eexists _, _.
  - apply IH; [by apply N.div_lt|by apply N.neq_0_lt_0].
Qed.

Lemma isdigit_head (c : ascii) :
  CNFParser.isdigit c = true →
  CNFParser.isspace c = false ∧ Ascii.eqb c "-" = false ∧
  Ascii.eqb c "+" = false ∧ Ascii.eqb c "010" = false ∧ c ≠ "c"%char.
Proof.
  unfold CNFParser.isdigit, CNFParser.isspace.
  intros [H1 H2]%andb_true_iff.
  apply Nat.leb_le in H1, H2.
  assert (∀ d : ascii, nat_of_ascii d < 48 ∨ 57 < nat_of_ascii d →
                       Ascii.eqb c d = false)%nat as Hne.
  { intros d Hd. apply Ascii.eqb_neq. intros ->. lia. }
  split; [|split; [|split; [|split]]].
  - apply orb_false_iff. split.
    + apply Nat.eqb_neq. lia.
    + apply andb_false_iff. right. apply Nat.leb_gt. lia.
  - apply Hne. vm_compute. lia.
  - apply Hne. vm_compute. lia.
  - apply Hne. vm_compute. lia.
  - intros ->. vm_compute in H2. lia.
Qed.

(** An [int] written in decimal and followed by something that is no digit
    is read back by the extraction, which stops right after it. *)
Lemma get_int_pretty (z : Z) (rest : string) (old : Z) :
  INT_MIN ≤ z ≤ INT_MAX → ends_number rest = true →
  CNFParser.get_int (CNFParser.mkStream (pretty z +:+ rest) false) old
  = (CNFParser.mkStream rest false, z).
Proof.
  intros Hz Hrest.
  assert (∀ (x : N) (negative : bool),
    (0 < x)%N →
    INT_MIN ≤ (if negative then - Z.of_N x else Z.of_N x) ≤ INT_MAX →
    (let '(n, seen, r) := CNFParser.digits (pretty_N_go x rest) 0 false in
     if negb seen then (CNFParser.mkStream r true, 0)
     else let v := if negative then - n else n in
          if v <? INT_MIN then (CNFParser.mkStream r true, INT_MIN)
          else if INT_MAX <? v then (CNFParser.mkStream r true, INT_MAX)
               else (CNFParser.mkStream r false, v))
    = (CNFParser.mkStream rest false,
       if negative then - Z.of_N x else Z.of_N x)) as Hbody.
  { intros x negative Hx Hr. destruct (digits_pretty_N_go x Hx) as [k Hk].
    rewrite Hk, digits_ends_number by done. cbn [negb].
    replace (0 * k + Z.of_N x) with (Z.of_N x) by lia.
    rewrite (proj2 (Z.ltb_ge _ _)) by lia.
    by rewrite (proj2 (Z.ltb_ge _ _)) by lia. }
  unfold CNFParser.get_int. cbn [CNFParser.failbit CNFParser.unread].
  destruct z as [|p|p]; unfold pretty, pretty_Z.
  - change ("0" +:+ rest) with (String "0" rest).
    cbn [CNFParser.skipws]. change (CNFParser.isspace "0") with false.
    cbn iota. change (Ascii.eqb "0" "-") with false.
    change (Ascii.eqb "0" "+") with false. cbn iota.
    rewrite digits_cons_digit by done. by rewrite digits_ends_number.
  - unfold pretty, pretty_positive, pretty, pretty_N.
    rewrite decide_False by done. rewrite pretty_N_go_app, string_app_nil_l.
    destruct (pretty_N_go_head (N.pos p) rest) as (c & r & Hc & Hd); [done|].
    destruct (isdigit_head c Hd) as (Hsp & Hm & Hpl & _).
    rewrite Hc. cbn [CNFParser.skipws]. rewrite Hsp, Hm, Hpl. rewrite <- Hc.
    apply (Hbody (N.pos p) false); [done|]. exact Hz.
  - unfold pretty, pretty_positive, pretty, pretty_N.
    rewrite decide_False by done. rewrite string_app_assoc.
    rewrite pretty_N_go_app, string_app_nil_l.
    change ("-" +:+ ?s) with (String "-" s).
    cbn [CNFParser.skipws]. change (CNFParser.isspace "-") with false.
    cbn iota. change (Ascii.eqb "-" "-") with true. cbn iota.
    apply (Hbody (N.pos p) true); [done|]. exact Hz.
Qed.

Lemma get_int_blank (s : string) (old : Z) :
  CNFParser.get_int (CNFParser.mkStream (String " " s) false) old
  = CNFParser.get_int (CNFParser.mkStream s false) old.
Proof. reflexivity. Qed.

Lemma string_length_app (s t : string) :
  String.length (s +:+ t) = (String.length s + String.length t)%nat.
Proof.
  induction s as [|c s IH]; [done|].
  rewrite string_app_cons. cbn [String.length]. by rewrite IH.
Qed.

Lemma render_clause_length (clause : list Z) :
  (length clause < String.length (render_clause clause))%nat.
Proof.
  induction clause as [|lit rest IH]; cbn [render_clause length].
  - cbn. lia.
  - rewrite !string_length_app. cbn [String.length]. lia.
Qed.

(** The loop of [parseClause] on a rendered clause, with or without a
    blank in front of it, whatever follows the sentinel. *)
Lemma parseClause_loop_render (clause : list Z) (tail : string) (fuel : nat)
    (blank : bool) (p : Z) (out : list Z) :
  Forall (λ lit, INT_MIN ≤ lit ≤ INT_MAX ∧ lit ≠ 0) clause →
  ends_number tail = true →
  (length clause < fuel)%nat →
  CNFParser.parseClause_loop fuel
    (CNFParser.mkStream
       (if blank then String " " (render_clause clause +:+ tail)
        else render_clause clause +:+ tail) false) p out
  = Some (out ++ clause).
Proof.
  intros Hok Htail. revert fuel blank p out Hok.
  induction clause as [|lit rest IH]; intros fuel blank p out Hok Hf;
    (destruct fuel as [|fuel]; [cbn in Hf; lia|]);
    cbn [CNFParser.parseClause_loop].
  - assert (CNFParser.get_int
              (CNFParser.mkStream
                 (if blank then String " " (render_clause [] +:+ tail)
                  else render_clause [] +:+ tail) false) p
            = (CNFParser.mkStream tail false, 0)) as ->.
    { cbn [render_clause]. destruct blank; [rewrite get_int_blank|];
        by apply (get_int_pretty 0). }
    by rewrite app_nil_r.
  - apply Forall_cons in Hok as [[Hr Hnz] Hok].
    assert (CNFParser.get_int
              (CNFParser.mkStream
                 (if blank
                  then String " " (render_clause (lit :: rest) +:+ tail)
                  else render_clause (lit :: rest) +:+ tail) false) p
            = (CNFParser.mkStream
                 (String " " (render_clause rest +:+ tail)) false,
               lit)) as ->.
    { cbn [render_clause]. rewrite !string_app_assoc.
      destruct blank; [rewrite get_int_blank|]; by apply get_int_pretty. }
    cbn [CNFParser.failbit]. rewrite (proj2 (Z.eqb_neq _ _) Hnz).
    rewrite (IH fuel true lit (out ++ [lit]) Hok) by (cbn in Hf; lia).
    by rewrite <- app_assoc.
Qed.

Lemma parseClause_render (clause : list Z) (tail : string) :
  Forall (λ lit, INT_MIN ≤ lit ≤ INT_MAX ∧ lit ≠ 0) clause →
  ends_number tail = true →
  CNFParser.parseClause (render_clause clause +:+ tail) = clause.
Proof.
  intros Hok Htail. unfold CNFParser.parseClause.
  rewrite (parseClause_loop_render clause tail _ false 0 [] Hok Htail);
    [done|].
  pose proof (render_clause_length clause). rewrite string_length_app. lia.
Qed.

(** X13.  [parseClause] reads back a clause line and stops at the sentinel:
    for a clause whose literals are non-zero values of [int], written in
    decimal with a blank after each literal and closed by the sentinel 0,
    it returns exactly the literals, in order, without the sentinel, and
    whatever follows the sentinel on the line (nothing, or text that does
    not start with a digit, such as a second clause after a blank) is
    ignored. *)
Theorem parseClause_render_clause (clause : list Z) (tail : string) :
  Forall (λ lit, INT_MIN ≤ lit ≤ INT_MAX ∧ lit ≠ 0) clause →
  ends_number tail = true →
  CNFParser.parseClause (render_clause clause +:+ tail) = clause.
Proof. apply parseClause_render. Qed.

Lemma parseClause_render_clause_witness :
  Forall (λ lit, INT_MIN ≤ lit ≤ INT_MAX ∧ lit ≠ 0) [12; -305; 7] ∧
  ends_number " 4 5 0" = true ∧
  CNFParser.parseClause (render_clause [12; -305; 7] +:+ " 4 5 0")
  = [12; -305; 7].
Proof.
  assert (Forall (λ lit, INT_MIN ≤ lit ≤ INT_MAX ∧ lit ≠ 0) [12; -305; 7])
    as H by (repeat constructor; unfold INT_MIN, INT_MAX; lia).
  split; [exact H|]. split; [reflexivity|].
  exact (parseClause_render_clause [12; -305; 7] " 4 5 0" H eq_refl).
Defined.

(** ** Reading back a whole file *)

Lemma one_line_app (s t : string) :
  one_line (s +:+ t) = one_line s && one_line t.
Proof.
  induction s as [|c s IH]; [done|].
  rewrite string_app_cons. cbn [one_line]. by rewrite IH, andb_assoc.
Qed.

Lemma one_line_pretty_N_go (x : N) (s : string) :
  one_line (pretty_N_go x s) = one_line s.
Proof.
  revert s. induction (N.lt_wf_0 x) as [x _ IH]. intros s.
  destruct (decide (x = 0)%N) as [->|Hx]; [by rewrite pretty_N_go_0|].
  assert (0 < x)%N as Hpos by (by apply N.neq_0_lt_0).
  destruct (pretty_N_char_digit (x `mod` 10)%N) as [Hd _].
  { by apply N.mod_lt. }
  destruct (isdigit_head _ Hd) as (_ & _ & _ & Hnl & _).
  rewrite pretty_N_go_step by done. rewrite IH by (by apply N.div_lt).
  cbn [one_line]. by rewrite Hnl.
Qed.

Lemma one_line_pretty (z : Z) : one_line (pretty z) = true.
Proof.
  destruct z as [|p|p]; unfold pretty, pretty_Z; [done| |].
  - unfold pretty, pretty_positive, pretty, pretty_N.
    rewrite decide_False by done. by rewrite one_line_pretty_N_go.
  - unfold pretty, pretty_positive, pretty, pretty_N.
    rewrite decide_False by done.
    change ("-" +:+ ?s) with (String "-" s). cbn [one_line].
    by rewrite one_line_pretty_N_go.
Qed.

Lemma one_line_render_clause (clause : list Z) :
  one_line (render_clause clause) = true.
Proof.
  induction clause as [|lit rest IH]; [done|]. cbn [render_clause].
  by rewrite !one_line_app, one_line_pretty, IH.
Qed.

Lemma pretty_head (z : Z) (s : string) :
  ∃ c r, pretty z +:+ s = String c r ∧
         (CNFParser.isdigit c = true ∨ c = "-"%char).
Proof.
  destruct z as [|p|p]; unfold pretty, pretty_Z.
  - exists "0"%char, s. split; [done|by left].
  - unfold pretty, pretty_positive, pretty, pretty_N.
    rewrite decide_False by done. rewrite pretty_N_go_app.
    destruct (pretty_N_go_head (N.pos p) ("" +:+ s)) as (c & r & -> & Hd);
      [done|].
    exists c, r. split; [done|by left].
  - eexists "-"%char, _. split; [|by right]. by rewrite string_app_assoc.
Qed.

Lemma render_clause_not_skippable (clause : list Z) :
  CNFParser.isSkippable (render_clause clause) = false.
Proof.
  assert (∃ c r, render_clause clause = String c r ∧
                 (CNFParser.isdigit c = true ∨ c = "-"%char))
    as (c & r & -> & Hc).
  { destruct clause as [|lit rest].
    - exists "0"%char, "". split; [done|by left].
    - apply pretty_head. }
  unfold CNFParser.isSkippable. cbn [String.prefix String.eqb].
  rewrite orb_false_r. destruct (ascii_dec "c" c) as [<-|]; [|done].
  by destruct Hc.
Qed.

Lemma getlines_render_clauses (cls : list (list Z)) :
  CNFParser.getlines (render_clauses cls) "" false = render_clause <$> cls.
Proof.
  induction cls as [|clause cls IH]; [done|]. cbn [render_clauses].
  rewrite getlines_line by apply one_line_render_clause.
  by rewrite IH, string_app_nil_l.
Qed.

(** [parseHeader] on a header line written with the numbers [v] and [c]:
    the first reference parameter receives [v], the second [c]. *)
Lemma parseHeader_render (v c a b : Z) :
  INT_MIN ≤ v ≤ INT_MAX → INT_MIN ≤ c ≤ INT_MAX →
  CNFParser.parseHeader ("p cnf " +:+ pretty v +:+ " " +:+ pretty c) a b
  = (v, c, []).
Proof.
  intros Hv Hc. unfold CNFParser.parseHeader.
  change (CNFParser.get_string
            (CNFParser.mkStream
               ("p cnf " +:+ pretty v +:+ " " +:+ pretty c) false) "")
    with (CNFParser.mkStream
            (String " " (String "c" (String "n" (String "f"
               (String " " (pretty v +:+ " " +:+ pretty c)))))) false,
          "p"%string).
  cbn iota.
  change (CNFParser.get_string
            (CNFParser.mkStream
               (String " " (String "c" (String "n" (String "f"
                  (String " " (pretty v +:+ " " +:+ pretty c)))))) false) "")
    with (CNFParser.mkStream
            (String " " (pretty v +:+ " " +:+ pretty c)) false,
          "cnf"%string).
  cbn iota. rewrite get_int_blank, get_int_pretty by done.
  change (" " +:+ pretty c) with (String " " (pretty c)).
  rewrite get_int_blank. rewrite <- (string_app_nil_r (pretty c)).
  by rewrite get_int_pretty.
Qed.

Lemma fold_parse_line_render (cls : list (list Z)) (st : CNFParser.Locals) :
  CNFParser.headerFound st = true →
  Forall (λ clause, clause ≠ [] ∧
            Forall (λ lit, INT_MIN ≤ lit ≤ INT_MAX ∧ lit ≠ 0) clause) cls →
  fold_left CNFParser.parse_line (render_clause <$> cls) st
  = CNFParser.mkLocals
      (mkFormula (numVariables (CNFParser.formula st))
                 (numClauses (CNFParser.formula st))
                 (clauses (CNFParser.formula st) ++ cls))
      true (CNFParser.cout st).
Proof.
  revert st. induction cls as [|clause cls IH]; intros st Hf Hok.
  - cbn. rewrite app_nil_r. destruct st as [[? ? ?] ? ?]. cbn in *. by subst.
  - apply Forall_cons in Hok as [[Hne Hlit] Hok].
    cbn [fmap list_fmap fold_left]. unfold CNFParser.parse_line at 2.
    rewrite render_clause_not_skippable, Hf. cbn [negb andb].
    assert (CNFParser.parseClause (render_clause clause) = clause) as ->.
    { rewrite <- (string_app_nil_r (render_clause clause)) at 1.
      by apply parseClause_render. }
    destruct clause as [|lit rest]; [done|].
    rewrite IH by done. cbn. by rewrite <- app_assoc.
Qed.

Lemma parse_line_render_header (nv0 nc0 v c : Z) :
  INT_MIN ≤ v ≤ INT_MAX → INT_MIN ≤ c ≤ INT_MAX →
  CNFParser.parse_line
    (CNFParser.mkLocals (mkFormula nv0 nc0 []) false [])
    ("p cnf " +:+ pretty v +:+ " " +:+ pretty c)
  = CNFParser.mkLocals (mkFormula c v []) true [].
Proof.
  intros Hv Hc. unfold CNFParser.parse_line.
  change (CNFParser.isSkippable
            ("p cnf " +:+ pretty v +:+ " " +:+ pretty c)) with false.
  change (String.prefix "p "
            ("p cnf " +:+ pretty v +:+ " " +:+ pretty c)) with true.
  cbn [CNFParser.headerFound negb andb CNFParser.formula numClauses
       numVariables clauses CNFParser.cout].
  by rewrite parseHeader_render.
Qed.

(** X14.  [parse] reads back a whole file.  For a header line written with
    the numbers [v] and [c], in this order, followed by one line per
    clause, the clauses non-empty and made of non-zero values of [int],
    [parse] returns exactly these clauses, prints nothing, and stores the
    first number [v] in [numClauses] and the second number [c] in
    [numVariables]. *)
Theorem parse_render_file (nv0 nc0 v c : Z) (cls : list (list Z)) :
  INT_MIN ≤ v ≤ INT_MAX → INT_MIN ≤ c ≤ INT_MAX →
  Forall (λ clause, clause ≠ [] ∧
            Forall (λ lit, INT_MIN ≤ lit ≤ INT_MAX ∧ lit ≠ 0) clause) cls →
  CNFParser.parse nv0 nc0 (Some (render_file v c cls))
  = ({| numVariables := c; numClauses := v; clauses := cls |}, []).
Proof.
  intros Hv Hc Hok. unfold CNFParser.parse, render_file.
  assert ("p cnf " +:+ pretty v +:+ " " +:+ pretty c +:+ newline
          +:+ render_clauses cls
          = ("p cnf " +:+ pretty v +:+ " " +:+ pretty c) +:+ newline
            +:+ render_clauses cls) as ->.
  { by rewrite !string_app_assoc. }
  rewrite getlines_line.
  2:{ by rewrite !one_line_app, !one_line_pretty. }
  rewrite string_app_nil_l, getlines_render_clauses. cbn [fold_left].
  rewrite parse_line_render_header by done.
  by rewrite fold_parse_line_render.
Qed.

Lemma parse_render_file_witness :
  INT_MIN ≤ 3 ≤ INT_MAX ∧ INT_MIN ≤ 2 ≤ INT_MAX ∧
  Forall (λ clause, clause ≠ [] ∧
            Forall (λ lit, INT_MIN ≤ lit ≤ INT_MAX ∧ lit ≠ 0) clause)
         [[1; -3]; [2; 3; -1]] ∧
  CNFParser.parse 0 0 (Some (render_file 3 2 [[1; -3]; [2; 3; -1]]))
  = ({| numVariables := 2; numClauses := 3;
        clauses := [[1; -3]; [2; 3; -1]] |}, []).
Proof.
  assert (INT_MIN ≤ 3 ≤ INT_MAX) as H1 by (unfold INT_MIN, INT_MAX; lia).
  assert (INT_MIN ≤ 2 ≤ INT_MAX) as H2 by (unfold INT_MIN, INT_MAX; lia).
  assert (Forall (λ clause, clause ≠ [] ∧
            Forall (λ lit, INT_MIN ≤ lit ≤ INT_MAX ∧ lit ≠ 0) clause)
         [[1; -3]; [2; 3; -1]]) as H3
    by (repeat constructor; unfold INT_MIN, INT_MAX; (done || lia)).
  split; [exact H1|]. split; [exact H2|]. split; [exact H3|].
  exact (parse_render_file 0 0 3 2 [[1; -3]; [2; 3; -1]] H1 H2 H3).
Defined.

(** * Properties of [Assignment] *)

Lemma Assignment_new_replicate (numVars : Z) (a : list Assignment.Value) :
  Assignment.new numVars = Ok a →
  0 ≤ numVars + 1 ≤ INT_MAX ∧
  a = replicate (Z.to_nat (numVars + 1)) Assignment.UNASSIGNED.
Proof.
  unfold Assignment.new. case_decide; [done|]. case_decide; [|done].
  intros [= <-]. split; [lia|done].
Qed.

(** X15.  [set] followed by [get] of the same variable returns the value
    set; every other variable reads as before, and the vector keeps its
    size. *)
Theorem Assignment_get_set
    (a : list Assignment.Value) (var : Z) (val : Assignment.Value)
    (a' : list Assignment.Value) :
  Assignment.set a var val = Ok a' →
  Assignment.get a' var = Ok val ∧
  length a' = length a ∧
  ∀ other, other ≠ var → Assignment.get a' other = Assignment.get a other.
Proof.
  unfold Assignment.set. case_decide as Hr; [|done]. intros [= <-].
  unfold Assignment.get, subscript. split; [|split].
  - rewrite decide_True by lia. by rewrite list_lookup_insert_eq by lia.
  - apply length_insert.
  - intros other Hne. case_decide; [|done].
    by rewrite list_lookup_insert_ne by lia.
Qed.

Lemma Assignment_get_set_witness :
  Assignment.set [Assignment.UNASSIGNED; Assignment.FALSE] 1 Assignment.TRUE
  = Ok [Assignment.UNASSIGNED; Assignment.TRUE] ∧
  Assignment.get [Assignment.UNASSIGNED; Assignment.TRUE] 1
  = Ok Assignment.TRUE.
Proof.
  assert (Assignment.set [Assignment.UNASSIGNED; Assignment.FALSE] 1
            Assignment.TRUE
          = Ok [Assignment.UNASSIGNED; Assignment.TRUE]) as H by reflexivity.
  split; [exact H|].
  exact (proj1 (Assignment_get_set _ 1 Assignment.TRUE _ H)).
Defined.

(** X16.  [reset] brings an assignment back to the state in which the
    constructor made it: for every vector of the size that
    [Assignment(numVars)] allocates, [reset] yields exactly the constructed
    vector, in which every variable [0..numVars] reads UNASSIGNED. *)
Theorem Assignment_reset_is_fresh
    (numVars : Z) (fresh a : list Assignment.Value) :
  Assignment.new numVars = Ok fresh →
  length a = length fresh →
  Assignment.reset a = fresh ∧
  ∀ var, 0 ≤ var ≤ numVars →
         Assignment.isUnassigned (Assignment.reset a) var = Ok true.
Proof.
  intros [Hn ->]%Assignment_new_replicate Hl.
  rewrite length_replicate in Hl. unfold Assignment.reset. rewrite Hl.
  split; [done|]. intros var Hv.
  unfold Assignment.isUnassigned, Assignment.get, subscript.
  rewrite decide_True by lia. by rewrite lookup_replicate_2 by lia.
Qed.

Lemma Assignment_reset_is_fresh_witness :
  Assignment.new 1 = Ok [Assignment.UNASSIGNED; Assignment.UNASSIGNED] ∧
  length [Assignment.TRUE; Assignment.FALSE]
  = length [Assignment.UNASSIGNED; Assignment.UNASSIGNED] ∧
  Assignment.reset [Assignment.TRUE; Assignment.FALSE]
  = [Assignment.UNASSIGNED; Assignment.UNASSIGNED].
Proof.
  split; [reflexivity|]. split; [reflexivity|].
  exact (proj1 (Assignment_reset_is_fresh 1
                  [Assignment.UNASSIGNED; Assignment.UNASSIGNED]
                  [Assignment.TRUE; Assignment.FALSE] eq_refl eq_refl)).
Defined.

(** X17.  The variables of a constructed assignment are exactly
    [0..numVars]: each of them can be written, and a read or a write of any
    other index is outside the vector; the three predicates never hold
    together, and exactly the one for the value stored holds. *)
Theorem Assignment_bounds
    (numVars : Z) (a : list Assignment.Value) (var : Z)
    (val : Assignment.Value) :
  Assignment.new numVars = Ok a →
  (0 ≤ var ≤ numVars →
   ∃ a', Assignment.set a var val = Ok a' ∧
         Assignment.isTrue a' var
         = Ok (match val with Assignment.TRUE => true | _ => false end) ∧
         Assignment.isFalse a' var
         = Ok (match val with Assignment.FALSE => true | _ => false end) ∧
         Assignment.isUnassigned a' var
         = Ok (match val with Assignment.UNASSIGNED => true | _ => false end))
  ∧
  (¬ 0 ≤ var ≤ numVars →
   Assignment.set a var val = Crash AssignIndex ∧
   Assignment.get a var = Crash AssignIndex).
Proof.
  intros [Hn ->]%Assignment_new_replicate. split.
  - intros Hv. unfold Assignment.set. rewrite length_replicate.
    rewrite decide_True by lia. eexists. split; [done|].
    unfold Assignment.isTrue, Assignment.isFalse, Assignment.isUnassigned,
      Assignment.get, subscript.
    rewrite decide_True by lia.
    rewrite list_lookup_insert_eq by (rewrite length_replicate; lia). done.
  - intros Hv. unfold Assignment.set, Assignment.get, subscript.
    rewrite length_replicate. rewrite decide_False by lia. split; [done|].
    case_decide; [|done].
    rewrite (proj1 (lookup_replicate_None _ _ _)); [done|lia].
Qed.

Lemma Assignment_bounds_witness :
  Assignment.new 1 = Ok [Assignment.UNASSIGNED; Assignment.UNASSIGNED] ∧
  ¬ 0 ≤ 2 ≤ 1 ∧
  Assignment.set [Assignment.UNASSIGNED; Assignment.UNASSIGNED] 2
    Assignment.TRUE = Crash AssignIndex ∧
  Assignment.get [Assignment.UNASSIGNED; Assignment.UNASSIGNED] 2
  = Crash AssignIndex.
Proof.
  assert (¬ 0 ≤ 2 ≤ 1) as H by lia.
  split; [reflexivity|]. split; [exact H|].
  exact (proj2 (Assignment_bounds 1
                  [Assignment.UNASSIGNED; Assignment.UNASSIGNED] 2
                  Assignment.TRUE eq_refl) H).
Defined.

(** * Properties of the programs *)

(** X18.  The parse-and-print program echoes the header: for a file made of
    a header line with the numbers [v] and [c] and of clause lines, it
    prints [v], a newline, [c] and a newline, reading them from
    [numClauses] and [numVariables] in this order. *)
Theorem main_parse_echoes_header (nv0 nc0 v c : Z) (cls : list (list Z)) :
  INT_MIN ≤ v ≤ INT_MAX → INT_MIN ≤ c ≤ INT_MAX →
  Forall (λ clause, clause ≠ [] ∧
            Forall (λ lit, INT_MIN ≤ lit ≤ INT_MAX ∧ lit ≠ 0) clause) cls →
  main_parse nv0 nc0 (Some (render_file v c cls))
  = [pretty v; newline; pretty c; newline].
Proof.
  intros Hv Hc Hok. unfold main_parse, CNFParser.parse, render_file.
  assert ("p cnf " +:+ pretty v +:+ " " +:+ pretty c +:+ newline
          +:+ render_clauses cls
          = ("p cnf " +:+ pretty v +:+ " " +:+ pretty c) +:+ newline
            +:+ render_clauses cls) as ->.
  { by rewrite !string_app_assoc. }
  rewrite getlines_line.
  2:{ by rewrite !one_line_app, !one_line_pretty. }
  rewrite string_app_nil_l, getlines_render_clauses. cbn [fold_left].
  rewrite parse_line_render_header by done.
  by rewrite fold_parse_line_render.
Qed.

Lemma main_parse_echoes_header_witness :
  INT_MIN ≤ 3 ≤ INT_MAX ∧ INT_MIN ≤ 2 ≤ INT_MAX ∧
  Forall (λ clause, clause ≠ [] ∧
            Forall (λ lit, INT_MIN ≤ lit ≤ INT_MAX ∧ lit ≠ 0) clause)
         [[1; -3]; [2; 3; -1]] ∧
  main_parse 0 0 (Some (render_file 3 2 [[1; -3]; [2; 3; -1]]))
  = [pretty 3; newline; pretty 2; newline].
Proof.
  assert (INT_MIN ≤ 3 ≤ INT_MAX) as H1 by (unfold INT_MIN, INT_MAX; lia).
  assert (INT_MIN ≤ 2 ≤ INT_MAX) as H2 by (unfold INT_MIN, INT_MAX; lia).
  assert (Forall (λ clause, clause ≠ [] ∧
            Forall (λ lit, INT_MIN ≤ lit ≤ INT_MAX ∧ lit ≠ 0) clause)
         [[1; -3]; [2; 3; -1]]) as H3
    by (repeat constructor; unfold INT_MIN, INT_MAX; (done || lia)).
  split; [exact H1|]. split; [exact H2|]. split; [exact H3|].
  exact (main_parse_echoes_header 0 0 3 2 [[1; -3]; [2; 3; -1]] H1 H2 H3).
Defined.

(** X19.  The solving program, end to end.  For a file made of a header
    line with the numbers [v] and [c] and of clause lines, the solver is
    run on the formula that has [c] variables and declares [v] clauses;
    when that run returns a verdict, the program prints [v], [c] and the
    verdict, and ends normally. *)
Theorem main_solves_swapped_formula
    (nv0 nc0 v c : Z) (cls : list (list Z)) (result : bool) (a' : list Z) :
  INT_MIN ≤ v ≤ INT_MAX → INT_MIN ≤ c ≤ INT_MAX →
  Forall (λ clause, clause ≠ [] ∧
            Forall (λ lit, INT_MIN ≤ lit ≤ INT_MAX ∧ lit ≠ 0) clause) cls →
  run {| numVariables := c; numClauses := v; clauses := cls |}
  = Ok (result, a') →
  main nv0 nc0 (Some (render_file v c cls))
  = ([pretty v; newline; pretty c; newline;
      "Result: "; if result then "SAT" else "UNSAT"; ";"]%string, Ok tt).
Proof.
  intros Hv Hc Hok Hrun. unfold main, CNFParser.parse, render_file.
  assert ("p cnf " +:+ pretty v +:+ " " +:+ pretty c +:+ newline
          +:+ render_clauses cls
          = ("p cnf " +:+ pretty v +:+ " " +:+ pretty c) +:+ newline
            +:+ render_clauses cls) as ->.
  { by rewrite !string_app_assoc. }
  rewrite getlines_line.
  2:{ by rewrite !one_line_app, !one_line_pretty. }
  rewrite string_app_nil_l, getlines_render_clauses. cbn [fold_left].
  rewrite parse_line_render_header by done.
  rewrite fold_parse_line_render by done.
  cbn [CNFParser.formula CNFParser.cout numVariables numClauses clauses app].
  unfold run in Hrun. bind_inv Hrun. rewrite E, Hrun. done.
Qed.

Lemma main_solves_swapped_formula_witness :
  INT_MIN ≤ 1 ≤ INT_MAX ∧ INT_MIN ≤ 2 ≤ INT_MAX ∧
  Forall (λ clause, clause ≠ [] ∧
            Forall (λ lit, INT_MIN ≤ lit ≤ INT_MAX ∧ lit ≠ 0) clause)
         [[1]; [-1]] ∧
  run {| numVariables := 2; numClauses := 1; clauses := [[1]; [-1]] |}
  = Ok (true, [0; 1; 1]) ∧
  main 0 0 (Some (render_file 1 2 [[1]; [-1]]))
  = ([pretty 1; newline; pretty 2; newline;
      "Result: "; "SAT"; ";"]%string, Ok tt).
Proof.
  assert (INT_MIN ≤ 1 ≤ INT_MAX) as H1 by (unfold INT_MIN, INT_MAX; lia).
  assert (INT_MIN ≤ 2 ≤ INT_MAX) as H2 by (unfold INT_MIN, INT_MAX; lia).
  assert (Forall (λ clause, clause ≠ [] ∧
            Forall (λ lit, INT_MIN ≤ lit ≤ INT_MAX ∧ lit ≠ 0) clause)
         [[1]; [-1]]) as H3
    by (repeat constructor; unfold INT_MIN, INT_MAX; (done || lia)).
  assert (run {| numVariables := 2; numClauses := 1;
                 clauses := [[1]; [-1]] |} = Ok (true, [0; 1; 1])) as H4
    by reflexivity.
  split; [exact H1|]. split; [exact H2|]. split; [exact H3|].
  split; [exact H4|].
  exact (main_solves_swapped_formula 0 0 1 2 [[1]; [-1]] true [0; 1; 1]
           H1 H2 H3 H4).
Defined.

(** X20.  [solve] keeps the shape of the assignment vector: whatever the
    verdict, the vector it leaves has the size it had, and every variable
    entry holds 1, -1 or 0. *)
Theorem solve_keeps_size_and_values
    (f : Formula) (a : list Z) (b : bool) (a' : list Z) :
  Z.of_nat (length a) = numVariables f + 1 →
  solve f a = Ok (b, a') →
  length a' = length a ∧
  ∀ v val, 1 ≤ v → subscript a' v = Some val →
           val = 1 ∨ val = -1 ∨ val = 0.
Proof.
  intros Hlen (a0 & Hr & Hs)%solve_search.
  pose proof (reset_tri_state _ _ _ Hlen Hr) as Ht.
  apply reset_loop_spec in Hr as [Hl0 _].
  pose proof (search_length _ _ _ _ Hs) as Hl.
  split; [congruence|].
  intros v val Hv [_ Hval]%subscript_Some.
  apply (tri_state_search _ _ _ _ Hs Ht (Z.to_nat v)); [lia|done].
Qed.

Lemma solve_keeps_size_and_values_witness :
  Z.of_nat (length [0; 5; 7]) = numVariables stale_formula + 1 ∧
  solve stale_formula [0; 5; 7] = Ok (false, [0; 0; 1]) ∧
  length [0; 0; 1] = length [0; 5; 7].
Proof.
  assert (solve stale_formula [0; 5; 7] = Ok (false, [0; 0; 1])) as H
    by reflexivity.
  split; [reflexivity|]. split; [exact H|].
  exact (proj1 (solve_keeps_size_and_values stale_formula [0; 5; 7] false
                  [0; 0; 1] eq_refl H)).
Defined.

Lemma getlines_last (l acc : string) (started : bool) :
  one_line l = true → l ≠ "" ∨ started = true →
  CNFParser.getlines l acc started = [acc +:+ l].
Proof.
  revert acc started. induction l as [|c l IH]; intros acc started Hl Hs.
  - destruct Hs as [?| ->]; [done|]. by rewrite string_app_nil_r.
  - cbn [one_line] in Hl. apply andb_true_iff in Hl as [Hc Hl].
    cbn [CNFParser.getlines]. destruct (Ascii.eqb c "010"); [done|].
    rewrite IH by (done || by right). by rewrite string_app_assoc.
Qed.

(** X21.  The newline after the last line is optional: a file whose last
    line is not empty is parsed alike with and without a newline at its
    end. *)
Theorem parse_final_newline_optional
    (nv0 nc0 : Z) (pre line : string) :
  pre = "" ∨ (∃ pre', pre = pre' +:+ newline) →
  one_line line = true → line ≠ "" →
  CNFParser.parse nv0 nc0 (Some (pre +:+ line +:+ newline))
  = CNFParser.parse nv0 nc0 (Some (pre +:+ line)).
Proof.
  intros Hpre Hl Hne. unfold CNFParser.parse.
  assert (CNFParser.getlines (pre +:+ line +:+ newline) "" false
          = CNFParser.getlines (pre +:+ line) "" false) as ->; [|done].
  assert (CNFParser.getlines (line +:+ newline) "" false
          = CNFParser.getlines line "" false) as Hlast.
  { rewrite <- (string_app_nil_r (line +:+ newline)), string_app_assoc.
    rewrite getlines_line by done.
    by rewrite (getlines_last line "" false) by (done || by left). }
  destruct Hpre as [->|[pre' ->]]; [by rewrite !string_app_nil_l|].
  rewrite !string_app_assoc.
  rewrite (getlines_app pre' (line +:+ newline)), (getlines_app pre' line).
  by rewrite Hlast.
Qed.

Lemma parse_final_newline_optional_witness :
  (header_file = "" ∨ (∃ pre', header_file = pre' +:+ newline)) ∧
  one_line "1 -2 0" = true ∧ "1 -2 0"%string ≠ ""%string ∧
  CNFParser.parse 0 0 (Some (header_file +:+ "1 -2 0" +:+ newline))
  = CNFParser.parse 0 0 (Some (header_file +:+ "1 -2 0")).
Proof.
  assert (header_file = "" ∨ (∃ pre', header_file = pre' +:+ newline)) as H
    by (right; exists "p cnf 2 3"; reflexivity).
  assert ("1 -2 0"%string ≠ ""%string) as Hne by discriminate.
  split; [exact H|]. split; [reflexivity|]. split; [exact Hne|].
  exact (parse_final_newline_optional 0 0 header_file "1 -2 0"
           H eq_refl Hne).
Defined.
